(** * json.cpp: the stream parser and the indenting serializer

    A shallow embedding of [src/json.cpp].  The C++ program reads a value tree
    from a [std::istream] with the formatted extraction operators and writes it
    back to a [std::ostream].  The embedding keeps the shape of the program:

    - an [istream] is the character sequence with its get position and the
      state flags the program tests and sets ([eofbit], [failbit], [badbit],
      and the [skipws] format flag);
    - an [ostream] is the characters written so far and the [iword] slot that
      holds the indentation;
    - every [operator>>] and [operator<<] of the source is one function here,
      with the source's name where Rocq allows it;
    - [assert] is compiled in (no [NDEBUG]): a failed [assert], an exception
      and the use of an indeterminate value are results of their own
      ([Abort], [Throw], [Undefined]).

    What the C++ library does and the source does not fix (the [double]
    scanner and formatter, and whether a refused [std::map::insert] moves from
    its argument) is a parameter, gathered in the class [Platform]. *)

From Stdlib Require Import String DecimalString.
From Stdlib Require Import Ascii Bool Arith ZArith NArith Lia List.
Import ListNotations.

Local Open Scope list_scope.
Local Open Scope char_scope.

(* ================================================================== *)
(** ** Characters and texts *)

(** A [std::string] is its sequence of [char]s. *)
Definition text := list ascii.

(** The characters that cannot be typed in a literal here. *)
Definition dq : ascii := "034".        (* the double quote *)
Definition nl : ascii := "010".        (* '\n' *)
Definition bksp : ascii := "008".      (* '\b' *)
Definition ff : ascii := "012".        (* '\f' *)
Definition cr : ascii := "013".        (* '\r' *)
Definition tab : ascii := "009".       (* '\t' *)
Definition vt : ascii := "011".        (* '\v' *)
Definition bsl : ascii := "\".         (* the backslash *)

(** [chars "abc"] is the text of a literal. *)
Definition chars (s : string) : text := list_ascii_of_string s.

(** [json "{'a': 1}"] is the text of a literal in which every apostrophe
    stands for a double quote. *)
Definition json (s : string) : text :=
  map (fun c => if c =? "'" then dq else c) (chars s).

(** [isspace] in the "C" locale. *)
Definition isspace (c : ascii) : bool :=
  (c =? " ") || (c =? tab) || (c =? nl) || (c =? vt) || (c =? ff) || (c =? cr).

(** [isdigit]: '0' .. '9'.  (A [char] above 127 is negative where [char] is
    signed, and [isdigit] of it is then outside the C standard; the usual
    libraries answer false, as here.) *)
Definition isdigit (c : ascii) : bool :=
  (48 <=? nat_of_ascii c)%nat && (nat_of_ascii c <=? 57)%nat.

(** [std::string::compare]: [memcmp] on the common prefix (characters compared
    as [unsigned char]), then the lengths. *)
Fixpoint compare (a b : text) : comparison :=
  match a, b with
  | [], [] => Eq
  | [], _ :: _ => Lt
  | _ :: _, [] => Gt
  | x :: a', y :: b' =>
      match Ascii.compare x y with
      | Eq => compare a' b'
      | o => o
      end
  end.

(** [operator<] of [std::string], the order of the map's keys. *)
Definition lt (a b : text) : Prop := compare a b = Lt.

(* ================================================================== *)
(** ** Results *)

(** How a call ends.  [Ret a s] is a return with the stream left in state
    [s]; the stream may well have [failbit] set.  [Abort] is a failed
    [assert], [Throw] an exception nobody catches, [Undefined] the use of an
    indeterminate value (a [char] that a failed extraction never wrote,
    [back()] of an empty string) or a signed overflow.  [OutOfFuel] belongs to
    the embedding only: the loops are bounded by a counter. *)
Inductive outcome (S A : Type) : Type :=
| Ret (a : A) (s : S)
| Abort
| Throw
| Undefined
| OutOfFuel.

Arguments Ret {S A} a s.
Arguments Abort {S A}.
Arguments Throw {S A}.
Arguments Undefined {S A}.
Arguments OutOfFuel {S A}.

Definition bind {S A B} (m : outcome S A) (k : A -> S -> outcome S B)
  : outcome S B :=
  match m with
  | Ret a s => k a s
  | Abort => Abort
  | Throw => Throw
  | Undefined => Undefined
  | OutOfFuel => OutOfFuel
  end.

Notation "'do' ( x , s ) <- m ; k" :=
  (bind m (fun x s => k))
  (at level 10, x name, s name, m at level 100, k at level 200).

(* ================================================================== *)
(** ** The input stream *)

(** [got] holds the characters before the get position, the last one read
    first; [rest] the characters from the get position on. *)
Record istream : Type := mk_istream {
  got : text;
  rest : text;
  eofbit : bool;
  failbit : bool;
  badbit : bool;
  skipws : bool
}.

(** A stream opened on a text: nothing read, no flag set, [skipws] on. *)
Definition istream_of (s : text) : istream :=
  mk_istream [] s false false false true.

Definition good (st : istream) : bool :=
  negb (eofbit st || failbit st || badbit st).

(** [fail()], and so [!stream] and the truth value of a stream in a loop
    condition. *)
Definition fail (st : istream) : bool := failbit st || badbit st.

Definition set_failbit (st : istream) : istream :=
  mk_istream (got st) (rest st) (eofbit st) true (badbit st) (skipws st).

Definition set_eofbit (st : istream) : istream :=
  mk_istream (got st) (rest st) true (failbit st) (badbit st) (skipws st).

Definition set_badbit (st : istream) : istream :=
  mk_istream (got st) (rest st) (eofbit st) (failbit st) true (skipws st).

(** [clear()] *)
Definition clear (st : istream) : istream :=
  mk_istream (got st) (rest st) false false false (skipws st).

(** [>> std::skipws] and [>> std::noskipws] *)
Definition set_skipws (b : bool) (st : istream) : istream :=
  mk_istream (got st) (rest st) (eofbit st) (failbit st) (badbit st) b.

Definition seek (g r : text) (st : istream) : istream :=
  mk_istream g r (eofbit st) (failbit st) (badbit st) (skipws st).

(** The sentry's loop: discard white space. *)
Fixpoint skip_space (g r : text) : text * text :=
  match r with
  | c :: r' => if isspace c then skip_space (c :: g) r' else (g, r)
  | [] => (g, [])
  end.

(** [istream::sentry]: a stream that is not good fails; else white space is
    skipped when asked for, and meeting the end there sets [failbit|eofbit]. *)
Definition sentry (noskipws : bool) (st : istream) : bool * istream :=
  if good st then
    let st1 :=
      if negb noskipws && skipws st then
        let (g, r) := skip_space (got st) (rest st) in
        match r with
        | [] => set_failbit (set_eofbit (seek g r st))
        | _ :: _ => seek g r st
        end
      else st in
    if good st1 then (true, st1) else (false, set_failbit st1)
  else (false, set_failbit st).

(** [stream >> c] for a [char c]: [None] when nothing was extracted, and then [c]
    keeps whatever it held. *)
Definition get_char (st : istream) : option ascii * istream :=
  let (ok, st1) := sentry false st in
  if ok then
    match rest st1 with
    | c :: r => (Some c, seek (c :: got st1) r st1)
    | [] => (None, set_failbit (set_eofbit st1))
    end
  else (None, st1).

(** [unget()]: clears [eofbit] first; on a stream that is then good it
    steps back, and fails with [badbit] at the beginning. *)
Definition unget (st : istream) : istream :=
  let st0 :=
    mk_istream (got st) (rest st) false (failbit st) (badbit st) (skipws st) in
  if good st0 then
    match got st0 with
    | c :: g => seek g (c :: rest st0) st0
    | [] => set_badbit st0
    end
  else set_failbit st0.

(** The characters of a word: up to white space or the end. *)
Fixpoint take_word (g r : text) : text * (text * text) :=
  match r with
  | c :: r' =>
      if isspace c then ([], (g, r))
      else let '(w, p) := take_word (c :: g) r' in (c :: w, p)
  | [] => ([], (g, []))
  end.

(** [stream >> s] for a [std::string s] holding [s0]: the string is erased once
    the sentry succeeds; no character extracted sets [failbit], meeting the
    end sets [eofbit]. *)
Definition get_word (s0 : text) (st : istream) : text * istream :=
  let (ok, st1) := sentry false st in
  if ok then
    let '(w, (g, r)) := take_word (got st1) (rest st1) in
    let st2 := seek g r st1 in
    let st3 := match r with [] => set_eofbit st2 | _ :: _ => st2 end in
    (w, match w with [] => set_failbit st3 | _ :: _ => st3 end)
  else (s0, st1).

(* ================================================================== *)
(** ** What the C++ library fixes *)

(** [number] is [double].  [num_get s] is [std::num_get] for a [double] on
    the characters [s] at the get position: the value stored, whether the
    scan failed, and how many characters it took.  [num_put x] is what
    [os << x] writes for a [double] with the stream's default format.
    [failed_insert_moves] says whether [std::map::insert] of an rvalue pair
    still moves from the pair when the key is already there (the standard
    leaves it open; an implementation that looks the key up before it builds
    the node does not). *)
Class Platform : Type := {
  number : Type;
  number_zero : number;
  num_get : text -> number * bool * nat;
  num_put : number -> text;
  failed_insert_moves : bool
}.

(** [LONG_MAX] and [LONG_MIN] of an LP64 platform: the range of [iword]. *)
Definition LONG_MAX : Z := 2 ^ 63 - 1.
Definition LONG_MIN : Z := - 2 ^ 63.

(* ================================================================== *)
(** ** The value model *)

(** [std::map<string, V>] by its in-order sequence: the keys increase
    strictly.  [map_insert] is [insert]: a key that is present keeps its
    value, and the flag tells whether the pair went in. *)
Fixpoint map_insert {V : Type} (k : text) (v : V) (m : list (text * V))
  : list (text * V) * bool :=
  match m with
  | [] => ([(k, v)], true)
  | (k', v') :: m' =>
      match compare k k' with
      | Lt => ((k, v) :: m, true)
      | Eq => (m, false)
      | Gt => let (m'', b) := map_insert k v m' in ((k', v') :: m'', b)
      end
  end.

(** [find] of the map. *)
Fixpoint map_find {V : Type} (k : text) (m : list (text * V)) : option V :=
  match m with
  | [] => None
  | (k', v') :: m' =>
      match compare k k' with
      | Eq => Some v'
      | _ => map_find k m'
      end
  end.

(** The keys in the order a range-for visits them. *)
Definition keys {V : Type} (m : list (text * V)) : list text := map fst m.

(** The invariant of the map: strictly increasing keys. *)
Fixpoint increasing (ks : list text) : Prop :=
  match ks with
  | [] => True
  | k :: ks' =>
      match ks' with
      | [] => True
      | k' :: _ => lt k k'
      end /\ increasing ks'
  end.

Section Model.

Context {P : Platform}.

(** [value]: the variant over object, array, string, number, true, false and
    null. *)
#[local] Unset Elimination Schemes.
Inductive value : Type :=
| Object (obj : list (text * value))
| Array (ar : list value)
| String (str : text)
| Number (x : number)
| True_
| False_
| Null.
#[local] Set Elimination Schemes.

Definition object : Type := list (text * value).
Definition array : Type := list value.
Definition member : Type := (text * value)%type.

(** A default-constructed [value] holds the first alternative, an empty
    object. *)
Definition value_default : value := Object [].

(** What a moved-from object is left holding: the same alternative with an
    emptied container (as the usual implementations leave strings, vectors
    and maps).  The program never reads a moved-from [value], only a moved-from
    key. *)
Definition moved_from (v : value) : value :=
  match v with
  | Object _ => Object []
  | Array _ => Array []
  | String _ => String []
  | other => other
  end.

Definition member_moved_from (m : member) : member :=
  ([], moved_from (snd m)).

(** Every object in the tree satisfies the invariant of [std::map]. *)
Fixpoint wf_value (v : value) : Prop :=
  match v with
  | Object obj =>
      increasing (keys obj) /\
      (fix all (l : list (text * value)) : Prop :=
         match l with
         | [] => True
         | kv :: l' => wf_value (snd kv) /\ all l'
         end) obj
  | Array ar =>
      (fix all (l : list value) : Prop :=
         match l with
         | [] => True
         | x :: l' => wf_value x /\ all l'
         end) ar
  | _ => True
  end.

(** The nesting depth of collections. *)
Fixpoint depth (v : value) : nat :=
  match v with
  | Object obj =>
      S ((fix deepest (l : list (text * value)) : nat :=
            match l with
            | [] => 0
            | kv :: l' => Nat.max (depth (snd kv)) (deepest l')
            end) obj)
  | Array ar =>
      S ((fix deepest (l : list value) : nat :=
            match l with
            | [] => 0
            | x :: l' => Nat.max (depth x) (deepest l')
            end) ar)
  | _ => 0
  end.

(** The numbers in the tree. *)
Fixpoint numbers (v : value) : list number :=
  match v with
  | Object obj =>
      (fix all (l : list (text * value)) : list number :=
         match l with
         | [] => []
         | kv :: l' => numbers (snd kv) ++ all l'
         end) obj
  | Array ar =>
      (fix all (l : list value) : list number :=
         match l with
         | [] => []
         | x :: l' => numbers x ++ all l'
         end) ar
  | Number x => [x]
  | _ => []
  end.

(* ================================================================== *)
(** ** Input *)

(** [read_one_character]: the [char] is compared even when the extraction
    failed and left it indeterminate. *)
Definition read_one_character (ch : ascii) (st : istream)
  : outcome istream unit :=
  match get_char st with
  | (Some c, st1) => if c =? ch then Ret tt st1 else Abort
  | (None, _) => Undefined
  end.

(** [escaped_character] *)
Definition escaped_character (st : istream) : outcome istream ascii :=
  match get_char st with
  | (Some c, st1) =>
      Ret (if c =? "b" then bksp
           else if c =? "f" then ff
           else if c =? "n" then nl
           else if c =? "r" then cr
           else if c =? "t" then tab
           else c) st1
  | (None, _) => Undefined
  end.

(** The loop of [operator>>(istream&, string&)]: it ends when the extraction
    of [c] fails (the stream is then false) or at an unescaped quote. *)
Fixpoint string_loop (n : nat) (str : text) (st : istream)
  : outcome istream text :=
  match n with
  | 0 => OutOfFuel
  | S n' =>
      match get_char st with
      | (None, st1) => Ret str st1
      | (Some c, st1) =>
          if c =? bsl then
            do (c', st2) <- escaped_character st1;
            string_loop n' (str ++ [c']) st2
          else if c =? dq then Ret str st1
          else string_loop n' (str ++ [c]) st1
      end
  end.

(** [operator>>(istream&, string&)]: appends to [str]. *)
Definition read_string (n : nat) (str : text) (st : istream)
  : outcome istream text :=
  do (_, st1) <- read_one_character dq st;
  do (str', st2) <- string_loop n str (set_skipws false st1);
  Ret str' (set_skipws true st2).

(** The body shared by [operator>>] for [true_], [false_] and [null]: read a
    word, give back a trailing comma, compare. *)
Definition read_literal (spelling : text) (st : istream)
  : outcome istream unit :=
  let (s, st1) := get_word [] st in
  match last (map Some s) None with
  | None => Undefined
  | Some back =>
      let (s', st2) :=
        if back =? "," then (removelast s, unget st1) else (s, st1) in
      if list_eq_dec ascii_dec s' spelling then Ret tt st2 else Abort
  end.

Definition read_true : istream -> outcome istream unit :=
  read_literal (chars "true").
Definition read_false : istream -> outcome istream unit :=
  read_literal (chars "false").
Definition read_null : istream -> outcome istream unit :=
  read_literal (chars "null").

(** [is >> x] for a [double x] holding [x0]. *)
Definition get_number (x0 : number) (st : istream) : number * istream :=
  let (ok, st1) := sentry false st in
  if ok then
    let '(x, bad, n) := num_get (rest st1) in
    let st2 :=
      seek (rev (firstn n (rest st1)) ++ got st1) (skipn n (rest st1)) st1 in
    let st3 := if (length (rest st1) <=? n)%nat then set_eofbit st2 else st2 in
    (x, if bad then set_failbit st3 else st3)
  else (x0, st1).

Section Collections.

(** The parser of a value, as [operator>>(istream&, member&)] and the two
    collections see it through the forward declaration. *)
Variable read_value : value -> istream -> outcome istream value.

(** [operator>>(istream&, member&)] *)
Definition read_member (n : nat) (mem : member) (st : istream)
  : outcome istream member :=
  match get_char st with
  | (None, _) => Undefined
  | (Some c, st1) =>
      let st2 := unget st1 in
      if c =? dq then
        do (k, st3) <- read_string n (fst mem) st2;
        do (_, st4) <- read_one_character ":" st3;
        do (v, st5) <- read_value (snd mem) st4;
        Ret (k, v) st5
      else Ret mem (set_failbit st2)
  end.

(** The loop of [operator>>(istream&, object&)].  [m] is declared once, in the
    for-init: what [insert] leaves in it is what the next round appends the
    key to. *)
Fixpoint object_loop (n : nat) (m : member) (obj : object) (st : istream)
  : outcome istream object :=
  match n with
  | 0 => OutOfFuel
  | S n' =>
      do (m1, st1) <- read_member n' m st;
      if fail st1 then Ret obj st1
      else
        let (obj1, inserted) := map_insert (fst m1) (snd m1) obj in
        let m2 :=
          if inserted || failed_insert_moves then member_moved_from m1
          else m1 in
        match get_char st1 with
        | (None, _) => Undefined
        | (Some c, st2) =>
            if c =? "," then object_loop n' m2 obj1 st2
            else Ret obj1 (unget st2)
        end
  end.

(** [operator>>(istream&, object&)]: inserts into [obj]. *)
Definition read_object (n : nat) (obj : object) (st : istream)
  : outcome istream object :=
  do (_, st1) <- read_one_character "{" st;
  do (obj', st2) <- object_loop n (@nil ascii, value_default) obj st1;
  do (_, st3) <- read_one_character "}" (clear st2);
  Ret obj' st3.

(** The loop of [operator>>(istream&, array&)]. *)
Fixpoint array_loop (n : nat) (val : value) (ar : array) (st : istream)
  : outcome istream array :=
  match n with
  | 0 => OutOfFuel
  | S n' =>
      do (val1, st1) <- read_value val st;
      if fail st1 then Ret ar st1
      else
        match get_char st1 with
        | (None, _) => Undefined
        | (Some c, st2) =>
            if c =? "," then array_loop n' (moved_from val1) (ar ++ [val1]) st2
            else Ret (ar ++ [val1]) (unget st2)
        end
  end.

(** [operator>>(istream&, array&)]: appends to [ar]. *)
Definition read_array (n : nat) (ar : array) (st : istream)
  : outcome istream array :=
  do (_, st1) <- read_one_character "[" st;
  do (ar', st2) <- array_loop n value_default ar st1;
  do (_, st3) <- read_one_character "]" (clear st2);
  Ret ar' st3.

End Collections.

(** [operator>>(istream&, value&)].  [val] is what the variant held: the
    failing branch leaves it alone, the others [emplace] over it. *)
Fixpoint read_value (fuel : nat) (val : value) (st : istream)
  : outcome istream value :=
  match fuel with
  | 0 => OutOfFuel
  | S f =>
      match get_char st with
      | (None, _) => Undefined
      | (Some c, st1) =>
          let st2 := unget st1 in
          if c =? "{" then
            do (obj, st3) <- read_object (read_value f) f [] st2;
            Ret (Object obj) st3
          else if c =? "[" then
            do (ar, st3) <- read_array (read_value f) f [] st2;
            Ret (Array ar) st3
          else if c =? dq then
            do (str, st3) <- read_string f [] st2;
            Ret (String str) st3
          else if c =? "t" then
            do (_, st3) <- read_true st2; Ret True_ st3
          else if c =? "f" then
            do (_, st3) <- read_false st2; Ret False_ st3
          else if c =? "n" then
            do (_, st3) <- read_null st2; Ret Null st3
          else if isdigit c || (c =? "-") then
            let (x, st3) := get_number number_zero st2 in
            Ret (Number x) st3
          else Ret val (set_failbit st2)
      end
  end.

(** The parser run on a text, into a fresh [value]; the counter is one more
    than the length of the text, which is never used up
    (see [read_value_fuel]). *)
Definition parse (s : text) : outcome istream value :=
  read_value (S (length s)) value_default (istream_of s).

(** [main] reads an [object]. *)
Definition parse_object (s : text) : outcome istream object :=
  read_object (read_value (S (length s))) (S (length s)) [] (istream_of s).

End Model.

(* ================================================================== *)
(** ** Output *)

(** The characters written so far, and the [iword] slot that
    [indent_index()] names (a [long], zero in a fresh stream). *)
Record ostream : Type := mk_ostream {
  out : text;
  iword : Z
}.

Definition ostream_new : ostream := mk_ostream [] 0.

(** [os << s] for a character or a character string. *)
Definition put (s : text) (os : ostream) : ostream :=
  mk_ostream (out os ++ s) (iword os).

(** [find]: [std::find] over the array, as the offset of the iterator it
    returns; the length of the array is [std::end]. *)
Fixpoint find (characters : list ascii) (c : ascii) : nat :=
  match characters with
  | [] => 0
  | x :: characters' => if x =? c then 0 else S (find characters' c)
  end.

Definition escapes : list ascii := [dq; bsl; "/"; bksp; ff; nl; cr; tab].
Definition esc_chars : list ascii := [dq; bsl; "/"; "b"; "f"; "n"; "r"; "t"].

(** [operator<<(ostream&, const string&)] *)
Definition write_string (str : text) (os : ostream) : ostream :=
  put [dq]
    (fold_left
       (fun os c =>
          let it := find escapes c in
          if negb (it =? length escapes)%nat
          then put [bsl; nth it esc_chars c] os
          else put [c] os)
       str (put [dq] os)).

(** [operator<<(ostream&, indent_t)]: [std::string(n, ' ')] takes a
    [size_t], so a negative [iword] asks for more than [max_size()] and the
    constructor throws [std::length_error]. *)
Definition write_indent (os : ostream) : outcome ostream unit :=
  if (iword os <? 0)%Z then Throw
  else Ret tt (put (repeat " " (Z.to_nat (iword os))) os).

(** [operator<<(ostream&, increase_indent_t)] *)
Definition increase_indent (os : ostream) : outcome ostream unit :=
  if (LONG_MAX <? iword os + 2)%Z then Undefined
  else Ret tt (mk_ostream (out os) (iword os + 2)).

(** [operator<<(ostream&, decrease_indent_t)] *)
Definition decrease_indent (os : ostream) : outcome ostream unit :=
  if (iword os - 2 <? LONG_MIN)%Z then Undefined
  else Ret tt (mk_ostream (out os) (iword os - 2)).

Section Writer.

Context {P : Platform}.

Section Collections.

(** The writer of a value, as the collections see it through the forward
    declaration. *)
Variable write_value : value -> ostream -> outcome ostream unit.

(** The range-for of [operator<<(ostream&, const object&)]. *)
Fixpoint object_members (first : bool) (obj : object) (os : ostream)
  : outcome ostream unit :=
  match obj with
  | [] => Ret tt os
  | (key, val) :: obj' =>
      let os1 := if first then os else put [","; nl] os in
      do (_, os2) <- write_indent os1;
      do (_, os3) <- write_value val (put [":"; " "] (write_string key os2));
      object_members false obj' os3
  end.

(** The range-for of [operator<<(ostream&, const array&)]. *)
Fixpoint array_elements (first : bool) (ar : array) (os : ostream)
  : outcome ostream unit :=
  match ar with
  | [] => Ret tt os
  | el :: ar' =>
      let os1 := if first then os else put [","; nl] os in
      do (_, os2) <- write_indent os1;
      do (_, os3) <- write_value el os2;
      array_elements false ar' os3
  end.

(** [operator<<(ostream&, const object&)] *)
Definition write_object (obj : object) (os : ostream) : outcome ostream unit :=
  do (_, os1) <- increase_indent (put ["{"; nl] os);
  do (_, os2) <- object_members true obj os1;
  do (_, os3) <- decrease_indent (put [nl] os2);
  do (_, os4) <- write_indent os3;
  Ret tt (put ["}"] os4).

(** [operator<<(ostream&, const array&)] *)
Definition write_array (ar : array) (os : ostream) : outcome ostream unit :=
  do (_, os1) <- increase_indent (put ["["; nl] os);
  do (_, os2) <- array_elements true ar os1;
  do (_, os3) <- decrease_indent (put [nl] os2);
  do (_, os4) <- write_indent os3;
  Ret tt (put ["]"] os4).

End Collections.

(** [operator<<(ostream&, const value&)]: [visit] selects the operator of the
    alternative held. *)
Fixpoint write_value (v : value) (os : ostream) : outcome ostream unit :=
  match v with
  | Object obj => write_object write_value obj os
  | Array ar => write_array write_value ar os
  | String str => Ret tt (write_string str os)
  | Number x => Ret tt (put (num_put x) os)
  | True_ => Ret tt (put (chars "true") os)
  | False_ => Ret tt (put (chars "false") os)
  | Null => Ret tt (put (chars "null") os)
  end.

(** The serializer run on a fresh stream. *)
Definition serialize (v : value) : outcome ostream unit :=
  write_value v ostream_new.

End Writer.

(* ================================================================== *)
(** ** The program *)

(** [std::ifstream ifs{"sample.json"}]: a stream on the contents of the file,
    or, when the file cannot be opened, a stream with [failbit] set. *)
Definition ifstream (file : option text) : istream :=
  match file with
  | Some s => istream_of s
  | None => set_failbit (istream_of [])
  end.

(** [main]: read an object from the file, whatever the state the stream is
    left in, and write it to [std::cout] with [std::endl] after it.  The
    counter of the loops is one more than the length of the file. *)
Definition main {P : Platform} (file : option text) : outcome ostream unit :=
  let ifs := ifstream file in
  let fuel := S (length (rest ifs)) in
  match read_object (read_value fuel) fuel [] ifs with
  | Ret obj _ =>
      do (_, cout) <- write_object write_value obj ostream_new;
      Ret tt (put [nl] cout)
  | Abort => Abort
  | Throw => Throw
  | Undefined => Undefined
  | OutOfFuel => OutOfFuel
  end.

(* ================================================================== *)
(** ** An instance to run the model on *)

(** Unsigned decimal integers, which is where the library's scanner and its
    default formatter agree with this one digit for digit (up to six
    digits): enough to run the model on concrete texts.  The refused insert
    does not move from its argument. *)
Module Decimal.

Definition digit (c : ascii) : N := N_of_ascii c - 48.

Fixpoint scan (acc : N) (s : text) : N * nat :=
  match s with
  | c :: s' =>
      if isdigit c then
        let (x, n) := scan (acc * 10 + digit c)%N s' in (x, S n)
      else (acc, 0)
  | [] => (acc, 0)
  end.

Definition scan_number (s : text) : N * bool * nat :=
  let (x, n) := scan 0%N s in (x, (n =? 0)%nat, n).

Definition print_number (x : N) : text :=
  list_ascii_of_string (NilZero.string_of_uint (N.to_uint x)).

#[export] Instance platform : Platform := {|
  number := N;
  number_zero := 0%N;
  num_get := scan_number;
  num_put := print_number;
  failed_insert_moves := false
|}.

(** A tree with every kind of value in it. *)
Definition sample : @value platform :=
  Object
    [(chars "a", Number 1%N);
     (chars "b", Array [True_; False_; Null; Object []; Array [];
                        String (json "x'y\z/")])].

(** An object with a number and an empty array. *)
Definition small : @object platform :=
  [(chars "a", Number 1%N); (chars "b", Array [])].

End Decimal.

(* ================================================================== *)
(** ** The format, as the specification words it *)

(** These definitions follow the formatting rules of the specification, not
    the code; the theorems on the serializer compare the two. *)

(** "escape the 8 characters to their two-character escape forms; all other
    characters pass through unchanged" *)
Definition two_character_escape (c : ascii) : text :=
  if c =? dq then [bsl; dq]
  else if c =? bsl then [bsl; bsl]
  else if c =? "/" then [bsl; "/"]
  else if c =? bksp then [bsl; "b"]
  else if c =? ff then [bsl; "f"]
  else if c =? nl then [bsl; "n"]
  else if c =? cr then [bsl; "r"]
  else if c =? tab then [bsl; "t"]
  else [c].

(** "wrap in double quotes" *)
Definition quoted (str : text) : text :=
  [dq] ++ flat_map two_character_escape str ++ [dq].

(** The indent at depth [d]: [d] spaces. *)
Definition spaces (d : Z) : text := repeat " " (Z.to_nat d).

(** The children, with the separator between them. *)
Definition join (sep : text) (children : list text) : text :=
  match children with
  | [] => []
  | child :: others => child ++ flat_map (fun other => sep ++ other) others
  end.

(** "literal open bracket, newline, indent increased by one level (2
    spaces) for children, each child on its own line prefixed by current
    indent, [,\n] between children, newline, indent decreased, closing
    bracket at the outer indent" *)
Definition collection (d : Z) (opening closing : ascii) (children : list text)
  : text :=
  [opening; nl]
  ++ join [","; nl] (map (fun child => spaces (d + 2) ++ child) children)
  ++ [nl] ++ spaces d ++ [closing].

Section Layout.

Context {P : Platform}.

(** The text of a value written at depth [d]. *)
Fixpoint layout (d : Z) (v : value) : text :=
  match v with
  | Object obj =>
      collection d "{" "}"
        (map (fun kv => quoted (fst kv) ++ [":"; " "]
                        ++ layout (d + 2) (snd kv)) obj)
  | Array ar => collection d "[" "]" (map (layout (d + 2)) ar)
  | String str => quoted str
  | Number x => num_put x
  | True_ => chars "true"
  | False_ => chars "false"
  | Null => chars "null"
  end.

End Layout.

(* ================================================================== *)
(** ** Notions of the statements and of the proofs *)

(** Every key of the sequence is above [k]. *)
Definition above (k : text) (ks : list text) : Prop :=
  match ks with
  | [] => True
  | k' :: _ => lt k k'
  end.

(** How much of the text is still to be read. *)
Definition remaining (st : istream) : nat := length (rest st).

(** The text the stream is on: what was read, then what is still to read. *)
Definition content (st : istream) : text := rev (got st) ++ rest st.

(** A call that, when it returned, left the stream on the same text. *)
Definition keeps {A : Type} (st : istream) (r : outcome istream A) : Prop :=
  forall a st', r = Ret a st' -> content st' = content st.

(** A call that did not use up the counter, threw nothing and, when it
    returned, left no more to read than there was. *)
Definition steady {A : Type} (st : istream) (r : outcome istream A) : Prop :=
  (r <> OutOfFuel /\ r <> Throw) /\
  forall a st', r = Ret a st' -> remaining st' <= remaining st.

(** The three ways a call of the parser ends. *)
Definition ends {A : Type} (r : outcome istream A) : Prop :=
  (exists a st, r = Ret a st) \/ r = Abort \/ r = Undefined.

(** A good stream that skips white space, at [r] with [g] behind it. *)
Definition reading (g r : text) : istream :=
  mk_istream g r false false false true.

(** What may come after a value in the serializer's text: the end, a new
    line, or a comma and a new line. *)
Definition follows (tail : text) : Prop :=
  tail = [] \/ (exists t, tail = nl :: t) \/ (exists t, tail = "," :: nl :: t).

(** The stream after a value was read back: at [tail], not failed, and at
    the end of the text at most when [tail] is empty. *)
Definition landed (tail : text) (st : istream) : Prop :=
  exists g e, st = mk_istream g tail e false false true /\
              (tail <> [] -> e = false).

(** The children after the first one, each behind the separator. *)
Definition lines (first : bool) (sep : text) (children : list text) : text :=
  if first then join sep children
  else flat_map (fun other => sep ++ other) children.

(** A character of a string body that is neither the quote nor the
    backslash. *)
Definition plain (c : ascii) : bool := negb (c =? dq) && negb (c =? bsl).

(** What may stand behind a literal for its parser to accept it: the end of
    the text, white space, or a comma with the end or white space after
    it. *)
Definition ends_word (tail : text) : Prop :=
  match tail with
  | [] => True
  | c :: t =>
      isspace c = true \/
      (c = "," /\ match t with [] => True | c' :: _ => isspace c' = true end)
  end.

(** The five control characters of the escape table. *)
Definition control (c : ascii) : bool :=
  (c =? bksp) || (c =? ff) || (c =? nl) || (c =? cr) || (c =? tab).

(** The character an escape stands for: what [escaped_character] returns
    for the character after the backslash. *)
Definition escaped (c : ascii) : ascii :=
  if c =? "b" then bksp
  else if c =? "f" then ff
  else if c =? "n" then nl
  else if c =? "r" then cr
  else if c =? "t" then tab
  else c.

(** The body of a string in a text, every backslash and the character after
    it replaced by the character they stand for. *)
Fixpoint unescaped (body : text) : text :=
  match body with
  | [] => []
  | c :: r =>
      if c =? bsl then
        match r with
        | [] => []
        | e :: r' => escaped e :: unescaped r'
        end
      else c :: unescaped r
  end.

(** A body that the closing quote can follow: every backslash has a
    character after it, and no quote stands in it without a backslash
    before it. *)
Fixpoint closed (body : text) : bool :=
  match body with
  | [] => true
  | c :: r =>
      if c =? bsl then
        match r with
        | [] => false
        | _ :: r' => closed r'
        end
      else negb (c =? dq) && closed r
  end.

Section Notions.

Context {P : Platform}.

(** A scanner that reads the digit [c], when a comma or a closing brace
    comes after it, as the number [x], taking that one character. *)
Definition scans (c : ascii) (x : number) : Prop :=
  forall tail,
    num_get (c :: "," :: tail) = (x, false, 1) /\
    num_get (c :: "}" :: tail) = (x, false, 1).

(** Induction on a value, with the hypothesis on every child of a
    collection. *)
Fixpoint value_ind (Pv : value -> Prop)
    (HObject : forall obj,
        Forall (fun kv => Pv (snd kv)) obj -> Pv (Object obj))
    (HArray : forall ar, Forall Pv ar -> Pv (Array ar))
    (HString : forall str, Pv (String str))
    (HNumber : forall x, Pv (Number x))
    (HTrue : Pv True_) (HFalse : Pv False_) (HNull : Pv Null)
    (v : value) {struct v} : Pv v :=
  let rec := value_ind Pv HObject HArray HString HNumber HTrue HFalse HNull in
  match v with
  | Object obj =>
      HObject obj
        ((fix all (l : list (text * value))
            : Forall (fun kv => Pv (snd kv)) l :=
            match l with
            | [] => Forall_nil _
            | kv :: l' => Forall_cons kv (rec (snd kv)) (all l')
            end) obj)
  | Array ar =>
      HArray ar
        ((fix all (l : list value) : Forall Pv l :=
            match l with
            | [] => Forall_nil _
            | x :: l' => Forall_cons x (rec x) (all l')
            end) ar)
  | String str => HString str
  | Number x => HNumber x
  | True_ => HTrue
  | False_ => HFalse
  | Null => HNull
  end.

(** The invariant of a map with well-formed values. *)
Definition wf_object_map (obj : object) : Prop :=
  increasing (keys obj) /\ Forall (fun kv => wf_value (snd kv)) obj.

(** A value that fits: written at a depth that is not negative and leaves
    room for its nesting, it comes out as [layout] says and the depth is
    back where it was. *)
Definition written (v : value) : Prop :=
  forall os,
    (0 <= iword os)%Z ->
    (iword os + 2 * Z.of_nat (depth v) <= LONG_MAX)%Z ->
    write_value v os = Ret tt (put (layout (iword os) v) os).

(** A number the output grammar expresses exactly: its text starts the way
    the parser expects a number to start, and the scanner reads the text back
    as the same number and stops where the text ends. *)
Definition roundtrips (x : number) : Prop :=
  (exists c r, num_put x = c :: r /\ (isdigit c || (c =? "-")) = true) /\
  forall tail, follows tail ->
               num_get (num_put x ++ tail) = (x, false, length (num_put x)).

(** A value that the parser reads back from its text, whatever white space
    stands before it and whatever a serialized text may hold after it. *)
Definition reads (v : value) : Prop :=
  forall d fuel val g ws tail,
    forallb isspace ws = true -> follows tail ->
    length (ws ++ layout d v ++ tail) < fuel ->
    exists st,
      read_value fuel val (reading g (ws ++ layout d v ++ tail)) = Ret v st
      /\ landed tail st.

(** The text of an element or member after the first one. *)
Definition next_element (d : Z) (x : value) : text :=
  "," :: nl :: spaces d ++ layout d x.

Definition member_text (d : Z) (kv : text * value) : text :=
  quoted (fst kv) ++ ":" :: " " :: layout d (snd kv).

Definition next_member (d : Z) (kv : text * value) : text :=
  "," :: nl :: spaces d ++ member_text d kv.

(** A value that, whenever it is written, comes out as [layout] says. *)
Definition comes_out (v : value) : Prop :=
  forall os os',
    write_value v os = Ret tt os' -> os' = put (layout (iword os) v) os.

End Notions.

(* ================================================================== *)
(** * Properties *)

(** ** The order of the keys *)

Lemma ascii_compare_refl (c : ascii) : Ascii.compare c c = Eq.
Proof. unfold Ascii.compare. apply N.compare_refl. Qed.

Lemma ascii_compare_lt_trans (a b c : ascii) :
  Ascii.compare a b = Lt -> Ascii.compare b c = Lt -> Ascii.compare a c = Lt.
Proof.
  unfold Ascii.compare. rewrite !N.compare_lt_iff. apply N.lt_trans.
Qed.

Lemma compare_refl (a : text) : compare a a = Eq.
Proof.
  induction a as [|x a IH]; simpl; [reflexivity|].
  now rewrite ascii_compare_refl.
Qed.

Lemma compare_eq (a b : text) : compare a b = Eq -> a = b.
Proof.
  revert b. induction a as [|x a IH]; intros [|y b]; simpl; try discriminate.
  - reflexivity.
  - destruct (Ascii.compare x y) eqn:E; try discriminate.
    intros H. apply Ascii.compare_eq_iff in E. f_equal; auto.
Qed.

Lemma compare_antisym (a b : text) : compare b a = CompOpp (compare a b).
Proof.
  revert b. induction a as [|x a IH]; intros [|y b]; simpl; try reflexivity.
  rewrite (Ascii.compare_antisym y x).
  destruct (Ascii.compare x y); simpl; auto.
Qed.

Lemma lt_trans (a b c : text) : lt a b -> lt b c -> lt a c.
Proof.
  unfold lt. revert b c.
  induction a as [|x a IH]; intros [|y b] [|z c]; simpl; try discriminate; auto.
  destruct (Ascii.compare x y) eqn:Exy; try discriminate;
    destruct (Ascii.compare y z) eqn:Eyz; try discriminate; intros H1 H2.
  - apply Ascii.compare_eq_iff in Exy, Eyz. subst.
    rewrite ascii_compare_refl. eauto.
  - apply Ascii.compare_eq_iff in Exy. subst. now rewrite Eyz.
  - apply Ascii.compare_eq_iff in Eyz. subst. now rewrite Exy.
  - now rewrite (ascii_compare_lt_trans _ _ _ Exy Eyz).
Qed.

Lemma lt_gt (a b : text) : lt a b -> compare b a = Gt.
Proof. unfold lt. intros H. now rewrite compare_antisym, H. Qed.

Lemma gt_lt (a b : text) : compare a b = Gt -> lt b a.
Proof. unfold lt. intros H. now rewrite compare_antisym, H. Qed.

(** ** The map *)

Section MapFacts.

Variable V : Type.
Implicit Types (m : list (text * V)) (k : text) (v : V).

Lemma increasing_cons k ks :
  increasing (k :: ks) <-> above k ks /\ increasing ks.
Proof. destruct ks; simpl; tauto. Qed.

Lemma map_insert_above k0 k v m :
  above k0 (keys m) -> lt k0 k -> above k0 (keys (fst (map_insert k v m))).
Proof.
  destruct m as [|[k' v'] m]; simpl; intros Hm Hk; auto.
  destruct (compare k k'); simpl; auto.
  destruct (map_insert k v m); simpl; auto.
Qed.

Lemma map_insert_increasing k v m :
  increasing (keys m) -> increasing (keys (fst (map_insert k v m))).
Proof.
  induction m as [|[k' v'] m IH]; intros Hm.
  - simpl; auto.
  - cbn [map_insert]. destruct (compare k k') eqn:E.
    + exact Hm.
    + change (increasing (k :: keys ((k', v') :: m))).
      apply increasing_cons. split; [exact E | exact Hm].
    + change (keys ((k', v') :: m)) with (k' :: keys m) in Hm.
      apply increasing_cons in Hm. destruct Hm as [Hab Hinc].
      pose proof (map_insert_above k' k v m Hab (gt_lt _ _ E)) as Hab'.
      specialize (IH Hinc).
      destruct (map_insert k v m) as [m'' b]. simpl in *.
      apply increasing_cons. split; assumption.
Qed.

(** A key above every key of an increasing map goes to the end. *)
Lemma map_insert_last k v m :
  Forall (fun k' => lt k' k) (keys m) ->
  map_insert k v m = (m ++ [(k, v)], true).
Proof.
  induction m as [|[k' v'] m IH]; simpl; intros H; [reflexivity|].
  inversion H as [|? ? Hk Hr]; subst.
  rewrite (lt_gt _ _ Hk), (IH Hr). reflexivity.
Qed.

Lemma above_find_none k m :
  increasing (keys m) -> above k (keys m) -> map_find k m = None.
Proof.
  induction m as [|[k' v'] m IH]; simpl; intros Hinc Hab; [reflexivity|].
  change (increasing (k' :: keys m)) in Hinc.
  apply increasing_cons in Hinc. destruct Hinc as [Hab' Hinc].
  unfold lt in Hab. rewrite Hab. apply IH; auto.
  destruct m as [|[k'' v''] m]; simpl in *; auto.
  eapply lt_trans; eauto.
Qed.

(** [insert] refuses a key that is present: the map stays as it is. *)
Lemma map_insert_present k v v0 m :
  increasing (keys m) -> map_find k m = Some v0 ->
  map_insert k v m = (m, false).
Proof.
  induction m as [|[k' v'] m IH]; simpl; intros Hinc Hf; [discriminate|].
  change (increasing (k' :: keys m)) in Hinc.
  apply increasing_cons in Hinc. destruct Hinc as [Hab Hinc].
  destruct (compare k k') eqn:E.
  - reflexivity.
  - rewrite above_find_none in Hf; [discriminate|assumption|].
    destruct m as [|[k'' v''] m]; simpl in *; auto.
    eapply lt_trans; eauto.
  - now rewrite (IH Hinc Hf).
Qed.

(** [insert] leaves the other keys alone. *)
Lemma map_insert_other k k' v m :
  compare k' k <> Eq ->
  map_find k' (fst (map_insert k v m)) = map_find k' m.
Proof.
  intros Hne. induction m as [|[k1 v1] m IH]; simpl.
  - destruct (compare k' k); [contradiction| |]; reflexivity.
  - destruct (compare k k1) eqn:E; simpl.
    + reflexivity.
    + destruct (compare k' k); [contradiction| |]; reflexivity.
    + destruct (map_insert k v m) as [m'' b]. simpl in *.
      now rewrite IH.
Qed.

(** What the map held before an [insert], it holds after. *)
Lemma map_insert_keeps k k' v v0 m :
  increasing (keys m) -> map_find k' m = Some v0 ->
  map_find k' (fst (map_insert k v m)) = Some v0.
Proof.
  intros Hinc Hf. destruct (compare k' k) eqn:E.
  - apply compare_eq in E. subst.
    now rewrite (map_insert_present _ v v0 m Hinc Hf).
  - rewrite map_insert_other; [assumption|congruence].
  - rewrite map_insert_other; [assumption|congruence].
Qed.

End MapFacts.

(** ** The stream operations *)

Lemma skip_space_length g r :
  length (snd (skip_space g r)) <= length r.
Proof.
  revert g. induction r as [|c r IH]; intros g; simpl; [lia|].
  destruct (isspace c); simpl; [|lia].
  specialize (IH (c :: g)). lia.
Qed.

Lemma skip_space_head g r :
  match snd (skip_space g r) with
  | [] => True
  | c :: _ => isspace c = false
  end.
Proof.
  revert g. induction r as [|c r IH]; intros g; simpl; [exact I|].
  destruct (isspace c) eqn:E; simpl; [apply IH | exact E].
Qed.

(** White space in front of a character that is none. *)
Lemma skip_space_app ws g c r :
  forallb isspace ws = true -> isspace c = false ->
  skip_space g (ws ++ c :: r) = (rev ws ++ g, c :: r).
Proof.
  revert g. induction ws as [|w ws IH]; intros g Hws Hc; simpl in *.
  - now rewrite Hc.
  - apply andb_prop in Hws. destruct Hws as [Hw Hws].
    rewrite Hw, IH by assumption. now rewrite <- app_assoc.
Qed.

Lemma sentry_spec b st :
  let (ok, st1) := sentry b st in
  remaining st1 <= remaining st /\ skipws st1 = skipws st /\
  if ok then good st = true /\ good st1 = true
  else fail st1 = true.
Proof.
  unfold sentry, remaining, good, fail.
  destruct st as [g r e f bd sk]; simpl.
  destruct e, f, bd; simpl; auto with bool.
  destruct (negb b && sk); simpl; [|auto].
  pose proof (skip_space_length g r) as Hl.
  destruct (skip_space g r) as [g' r']; simpl in *.
  destruct r'; simpl; auto.
Qed.

(** A [char] was extracted: the stream was good and stays good, and the
    character is the one [unget] gives back.  None was: the stream is
    false. *)
Lemma get_char_spec st :
  match get_char st with
  | (Some c, st1) =>
      good st = true /\ good st1 = true /\ skipws st1 = skipws st /\
      S (remaining st1) <= remaining st /\
      exists g, got st1 = c :: g
  | (None, st1) => fail st1 = true /\ remaining st1 <= remaining st
  end.
Proof.
  unfold get_char. pose proof (sentry_spec false st) as H.
  destruct (sentry false st) as [[|] st1].
  - destruct H as (Hl & Hs & Hg & Hg1).
    destruct st1 as [g r e f bd sk]; simpl in *.
    destruct r as [|c r]; simpl.
    + unfold fail; simpl. split; [reflexivity | exact Hl].
    + unfold good, remaining in *; simpl in *.
      repeat split; auto; try lia; eauto.
  - destruct H as (Hl & Hs & Hf). auto.
Qed.

(** [unget] after an extraction: one character back, still good. *)
Lemma unget_good st c g :
  good st = true -> got st = c :: g ->
  unget st = seek g (c :: rest st) st.
Proof.
  destruct st as [g0 r e f bd sk]. unfold good, unget; simpl.
  intros Hg Hgot. subst g0.
  destruct e, f, bd; try discriminate. reflexivity.
Qed.

Lemma unget_get_char st c st1 :
  get_char st = (Some c, st1) ->
  good (unget st1) = true /\ skipws (unget st1) = skipws st /\
  remaining (unget st1) <= remaining st /\
  exists r, rest (unget st1) = c :: r.
Proof.
  intros H. pose proof (get_char_spec st) as Hs. rewrite H in Hs.
  destruct Hs as (_ & Hg & Hsk & Hl & g & Hgot).
  rewrite (unget_good st1 c g Hg Hgot).
  destruct st1 as [g1 r e f bd sk]; unfold good, remaining in *; simpl in *.
  repeat split; auto. now exists r.
Qed.

(** The extraction of a [char] from a good stream that skips white space. *)
Lemma get_char_skip ws g c r :
  forallb isspace ws = true -> isspace c = false ->
  get_char (mk_istream g (ws ++ c :: r) false false false true)
  = (Some c, mk_istream (c :: rev ws ++ g) r false false false true).
Proof.
  intros Hws Hc. unfold get_char, sentry; simpl.
  now rewrite (skip_space_app ws g c r Hws Hc).
Qed.

Lemma take_word_spec g r :
  let '(w, (g', r')) := take_word g r in
  length w + length r' = length r /\ g' = rev w ++ g /\ r = w ++ r'.
Proof.
  revert g. induction r as [|c r IH]; intros g; simpl; [auto|].
  destruct (isspace c); simpl; [auto|].
  specialize (IH (c :: g)).
  destruct (take_word (c :: g) r) as [w [g' r']].
  destruct IH as (Hl & Hg & Hr). simpl. subst.
  rewrite <- app_assoc. simpl. repeat split; auto; lia.
Qed.

Lemma get_word_spec st :
  let (w, st1) := get_word [] st in
  length w + remaining st1 <= remaining st.
Proof.
  unfold get_word. pose proof (sentry_spec false st) as H.
  destruct (sentry false st) as [[|] st1].
  - destruct H as (Hl & _ & _ & _).
    pose proof (take_word_spec (got st1) (rest st1)) as Hw.
    destruct (take_word (got st1) (rest st1)) as [w [g r]].
    destruct Hw as (Hw & _ & _).
    unfold remaining in *.
    destruct r, w; simpl in *; lia.
  - simpl. apply H.
Qed.

Lemma unget_remaining st : remaining (unget st) <= S (remaining st).
Proof.
  destruct st as [g r e f bd sk]. unfold unget, remaining; simpl.
  destruct (good _); [destruct g|]; simpl; lia.
Qed.

(** ** Every loop of the parser ends *)

Lemma steady_bind {A B : Type} st (m : outcome istream A)
    (k : A -> istream -> outcome istream B) :
  steady st m ->
  (forall a st1, m = Ret a st1 -> remaining st1 <= remaining st ->
                 steady st1 (k a st1)) ->
  steady st (bind m k).
Proof.
  intros [[Hm Ht] Hle] Hk. destruct m as [a st1| | | |]; simpl;
    try (split; [split; discriminate | intros ? ? H; discriminate H]);
    try contradiction.
  specialize (Hk a st1 eq_refl (Hle a st1 eq_refl)).
  destruct Hk as [Hk1 Hk2]. split; [assumption|].
  intros b st' H. specialize (Hk2 b st' H).
  specialize (Hle a st1 eq_refl). lia.
Qed.

Lemma steady_ret {A : Type} st (a : A) st' :
  remaining st' <= remaining st -> steady st (Ret a st').
Proof.
  intros H. split; [split; discriminate|].
  intros ? ? E. inversion E; subst. exact H.
Qed.

Lemma steady_weaken {A : Type} st0 st (r : outcome istream A) :
  remaining st <= remaining st0 -> steady st r -> steady st0 r.
Proof.
  intros Hle [H1 H2]. split; [assumption|].
  intros a st' E. specialize (H2 a st' E). lia.
Qed.

Ltac steady_stop :=
  split; [split; discriminate | intros ? ? X; discriminate X].

Section Termination.

Context {P : Platform}.

(** A character read by [read_one_character] is a character less. *)
Lemma read_one_character_spec ch st st' :
  read_one_character ch st = Ret tt st' ->
  good st' = true /\ skipws st' = skipws st /\
  S (remaining st') <= remaining st.
Proof.
  unfold read_one_character. pose proof (get_char_spec st) as H.
  destruct (get_char st) as [[c|] st1]; [|discriminate].
  destruct (c =? ch); [|discriminate].
  intros E. inversion E; subst. tauto.
Qed.

Lemma read_one_character_steady ch st :
  steady st (read_one_character ch st).
Proof.
  split.
  - unfold read_one_character.
    destruct (get_char st) as [[c|] st1]; [|split; discriminate].
    destruct (c =? ch); split; discriminate.
  - intros [] st' E. apply read_one_character_spec in E. lia.
Qed.

Lemma escaped_character_spec st c st' :
  escaped_character st = Ret c st' ->
  good st' = true /\ skipws st' = skipws st /\
  S (remaining st') <= remaining st.
Proof.
  unfold escaped_character. pose proof (get_char_spec st) as H.
  destruct (get_char st) as [[c0|] st1]; [|discriminate].
  intros E. inversion E; subst. tauto.
Qed.

Lemma string_loop_steady n str st :
  remaining st < n -> steady st (string_loop n str st).
Proof.
  revert str st. induction n as [|n IH]; intros str st Hn; [lia|].
  simpl. pose proof (get_char_spec st) as H.
  destruct (get_char st) as [[c|] st1].
  - destruct H as (_ & _ & _ & Hl & _).
    destruct (c =? bsl).
    + destruct (escaped_character st1) as [c' st2| | | |] eqn:E;
        simpl; try steady_stop;
        try (unfold escaped_character in E;
             destruct (get_char st1) as [[?|] ?]; discriminate).
      apply escaped_character_spec in E. destruct E as (_ & _ & Hl2).
      apply steady_weaken with (st := st2); [lia|]. apply IH. lia.
    + destruct (c =? dq).
      * apply steady_ret. lia.
      * apply steady_weaken with (st := st1); [lia|]. apply IH. lia.
  - apply steady_ret. tauto.
Qed.

Lemma read_string_steady n str st :
  remaining st <= n -> steady st (read_string n str st).
Proof.
  intros Hn. unfold read_string.
  apply steady_bind; [apply read_one_character_steady|].
  intros [] st1 E _. apply read_one_character_spec in E.
  destruct E as (_ & _ & Hl).
  apply steady_bind.
  - apply (string_loop_steady n str (set_skipws false st1)).
    unfold remaining in *; simpl. lia.
  - intros str' st2 _ Hl2. apply steady_ret. exact (le_n _).
Qed.

Lemma read_literal_steady spelling st :
  steady st (read_literal spelling st).
Proof.
  unfold read_literal. pose proof (get_word_spec st) as H.
  destruct (get_word [] st) as [w st1].
  destruct (last (map Some w) None) as [back|] eqn:Eb; [|steady_stop].
  assert (Hw : 1 <= length w).
  { destruct w; simpl in *; [discriminate | lia]. }
  pose proof (unget_remaining st1) as Hu.
  destruct (back =? ",").
  - destruct (list_eq_dec ascii_dec (removelast w) spelling); [|steady_stop].
    apply steady_ret. lia.
  - destruct (list_eq_dec ascii_dec w spelling); [|steady_stop].
    apply steady_ret. lia.
Qed.

Lemma get_number_remaining x0 st :
  remaining (snd (get_number x0 st)) <= remaining st.
Proof.
  unfold get_number. pose proof (sentry_spec false st) as H.
  destruct (sentry false st) as [[|] st1]; [|simpl; apply H].
  destruct H as (Hl & _).
  destruct (num_get (rest st1)) as [[x bad] n].
  assert (Hs : length (skipn n (rest st1)) <= length (rest st1)).
  { rewrite length_skipn. lia. }
  unfold remaining in *.
  destruct (length (rest st1) <=? n)%nat, bad; simpl; lia.
Qed.

Section Loops.

Variable rv : value -> istream -> outcome istream value.
Variable f : nat.
Hypothesis rv_steady :
  forall val st, remaining st < f -> steady st (rv val st).

Lemma read_member_steady n mem st :
  remaining st <= n -> remaining st < f ->
  steady st (read_member rv n mem st).
Proof.
  intros Hn Hf. unfold read_member.
  pose proof (unget_get_char st) as Hu.
  destruct (get_char st) as [[c|] st1]; [|steady_stop].
  destruct (Hu c st1 eq_refl) as (_ & _ & Hl & _). clear Hu.
  destruct (c =? dq).
  - apply steady_weaken with (st := unget st1); [assumption|].
    apply steady_bind; [apply read_string_steady; lia|].
    intros k st3 _ Hl3.
    apply steady_bind; [apply read_one_character_steady|].
    intros [] st4 E _. apply read_one_character_spec in E.
    apply steady_bind; [apply rv_steady; lia|].
    intros v st5 _ _. apply steady_ret. exact (le_n _).
  - apply steady_ret. exact Hl.
Qed.

Lemma object_loop_steady n m obj st :
  n <= f -> remaining st < n -> steady st (object_loop rv n m obj st).
Proof.
  revert m obj st. induction n as [|n IH]; intros m obj st Hnf Hn; [lia|].
  cbn [object_loop].
  apply steady_bind; [apply read_member_steady; lia|].
  intros m1 st1 _ Hl1.
  destruct (fail st1); [apply steady_ret; exact (le_n _)|].
  destruct (map_insert (fst m1) (snd m1) obj) as [obj1 inserted].
  pose proof (get_char_spec st1) as Hg.
  pose proof (unget_get_char st1) as Hu.
  destruct (get_char st1) as [[c|] st2]; [|steady_stop].
  destruct Hg as (_ & _ & _ & Hl2 & _).
  destruct (Hu c st2 eq_refl) as (_ & _ & Hl3 & _).
  destruct (c =? ",").
  - apply steady_weaken with (st := st2); [lia|]. apply IH; lia.
  - apply steady_ret. exact Hl3.
Qed.

Lemma read_object_steady n obj st :
  n <= f -> remaining st <= n -> steady st (read_object rv n obj st).
Proof.
  intros Hnf Hn. unfold read_object.
  apply steady_bind; [apply read_one_character_steady|].
  intros [] st1 E _. apply read_one_character_spec in E.
  apply steady_bind; [apply object_loop_steady; lia|].
  intros obj' st2 _ _.
  apply steady_weaken with (st := clear st2); [exact (le_n _)|].
  apply steady_bind; [apply read_one_character_steady|].
  intros [] st3 _ Hl. apply steady_ret. exact (le_n _).
Qed.

Lemma array_loop_steady n val ar st :
  n <= f -> remaining st < n -> steady st (array_loop rv n val ar st).
Proof.
  revert val ar st. induction n as [|n IH]; intros val ar st Hnf Hn; [lia|].
  cbn [array_loop].
  apply steady_bind; [apply rv_steady; lia|].
  intros val1 st1 _ Hl1.
  destruct (fail st1); [apply steady_ret; exact (le_n _)|].
  pose proof (get_char_spec st1) as Hg.
  pose proof (unget_get_char st1) as Hu.
  destruct (get_char st1) as [[c|] st2]; [|steady_stop].
  destruct Hg as (_ & _ & _ & Hl2 & _).
  destruct (Hu c st2 eq_refl) as (_ & _ & Hl3 & _).
  destruct (c =? ",").
  - apply steady_weaken with (st := st2); [lia|]. apply IH; lia.
  - apply steady_ret. exact Hl3.
Qed.

Lemma read_array_steady n ar st :
  n <= f -> remaining st <= n -> steady st (read_array rv n ar st).
Proof.
  intros Hnf Hn. unfold read_array.
  apply steady_bind; [apply read_one_character_steady|].
  intros [] st1 E _. apply read_one_character_spec in E.
  apply steady_bind; [apply array_loop_steady; lia|].
  intros ar' st2 _ _.
  apply steady_weaken with (st := clear st2); [exact (le_n _)|].
  apply steady_bind; [apply read_one_character_steady|].
  intros [] st3 _ Hl. apply steady_ret. exact (le_n _).
Qed.

End Loops.

(** A counter above the length of what is left is enough for
    [operator>>(istream&, value&)]. *)
Lemma read_value_steady fuel val st :
  remaining st < fuel -> steady st (read_value fuel val st).
Proof.
  revert val st. induction fuel as [|f IH]; intros val st Hf; [lia|].
  cbn [read_value].
  pose proof (unget_get_char st) as Hu.
  destruct (get_char st) as [[c|] st1]; [|steady_stop].
  destruct (Hu c st1 eq_refl) as (_ & _ & Hl & _). clear Hu.
  apply steady_weaken with (st := unget st1); [assumption|].
  destruct (c =? "{").
  { apply steady_bind; [apply read_object_steady with (f := f); auto; lia|].
    intros; apply steady_ret; exact (le_n _). }
  destruct (c =? "[").
  { apply steady_bind; [apply read_array_steady with (f := f); auto; lia|].
    intros; apply steady_ret; exact (le_n _). }
  destruct (c =? dq).
  { apply steady_bind; [apply read_string_steady; lia|].
    intros; apply steady_ret; exact (le_n _). }
  destruct (c =? "t").
  { apply steady_bind; [apply read_literal_steady|].
    intros; apply steady_ret; exact (le_n _). }
  destruct (c =? "f").
  { apply steady_bind; [apply read_literal_steady|].
    intros; apply steady_ret; exact (le_n _). }
  destruct (c =? "n").
  { apply steady_bind; [apply read_literal_steady|].
    intros; apply steady_ret; exact (le_n _). }
  destruct (isdigit c || (c =? "-")).
  - pose proof (get_number_remaining number_zero (unget st1)) as Hn.
    destruct (get_number number_zero (unget st1)) as [x st3].
    apply steady_ret. exact Hn.
  - apply steady_ret. exact (le_n _).
Qed.

End Termination.

(** ** The value tree *)

Section ValueFacts.

Context {P : Platform}.

Lemma wf_object obj :
  wf_value (Object obj) <->
  increasing (keys obj) /\ Forall (fun kv => wf_value (snd kv)) obj.
Proof.
  cbn [wf_value]. apply and_iff_compat_l.
  induction obj as [|kv obj IH].
  - split; auto.
  - split.
    + intros [H1 H2]. constructor; [exact H1 | now apply IH].
    + intros H. inversion H; subst. split; [assumption | now apply IH].
Qed.

Lemma wf_array ar : wf_value (Array ar) <-> Forall wf_value ar.
Proof.
  cbn [wf_value]. induction ar as [|x ar IH].
  - split; auto.
  - split.
    + intros [H1 H2]. constructor; [exact H1 | now apply IH].
    + intros H. inversion H; subst. split; [assumption | now apply IH].
Qed.

Lemma depth_object obj :
  Forall (fun kv => depth (snd kv) < depth (Object obj)) obj.
Proof.
  cbn [depth]. induction obj as [|kv obj IH]; constructor.
  - lia.
  - eapply Forall_impl; [|exact IH]. cbv beta. intros a Ha. lia.
Qed.

Lemma depth_array ar : Forall (fun x => depth x < depth (Array ar)) ar.
Proof.
  cbn [depth]. induction ar as [|x ar IH]; constructor.
  - lia.
  - eapply Forall_impl; [|exact IH]. cbv beta. intros a Ha. lia.
Qed.

Lemma numbers_object obj :
  numbers (Object obj) = flat_map (fun kv => numbers (snd kv)) obj.
Proof.
  cbn [numbers]. induction obj as [|kv obj IH]; simpl; [reflexivity|].
  now rewrite IH.
Qed.

Lemma numbers_array ar : numbers (Array ar) = flat_map numbers ar.
Proof.
  cbn [numbers]. induction ar as [|x ar IH]; simpl; [reflexivity|].
  now rewrite IH.
Qed.

End ValueFacts.

(** ** The serializer *)

Lemma put_put a b os : put b (put a os) = put (a ++ b) os.
Proof. unfold put; simpl. now rewrite <- app_assoc. Qed.

Lemma put_nil os : put [] os = os.
Proof. destruct os; unfold put; simpl. now rewrite app_nil_r. Qed.

(** The table look-up of the code is the escape of the specification. *)
Lemma escape_step c os :
  (let it := find escapes c in
   if negb (it =? length escapes)%nat
   then put [bsl; nth it esc_chars c] os
   else put [c] os)
  = put (two_character_escape c) os.
Proof.
  destruct c as [[] [] [] [] [] [] [] []]; reflexivity.
Qed.

Lemma write_string_quoted str os :
  write_string str os = put (quoted str) os.
Proof.
  unfold write_string, quoted.
  match goal with |- context [fold_left ?F _ _] => set (step := F) end.
  assert (Hstep : forall os0 c, step os0 c = put (two_character_escape c) os0)
    by (intros; apply escape_step).
  assert (H : forall os0,
             fold_left step str os0
             = put (flat_map two_character_escape str) os0).
  { induction str as [|c str IH]; intros os0; cbn [fold_left flat_map].
    - now rewrite put_nil.
    - rewrite Hstep, IH, put_put. reflexivity. }
  rewrite H, !put_put. reflexivity.
Qed.

Lemma write_indent_ok os :
  (0 <= iword os)%Z -> write_indent os = Ret tt (put (spaces (iword os)) os).
Proof.
  intros H. unfold write_indent.
  destruct (iword os <? 0)%Z eqn:E; [|reflexivity].
  apply Z.ltb_lt in E. lia.
Qed.

Lemma increase_indent_ok os :
  (iword os + 2 <= LONG_MAX)%Z ->
  increase_indent os = Ret tt (mk_ostream (out os) (iword os + 2)).
Proof.
  intros H. unfold increase_indent.
  destruct (LONG_MAX <? iword os + 2)%Z eqn:E; [|reflexivity].
  apply Z.ltb_lt in E. lia.
Qed.

Lemma decrease_indent_ok os :
  (LONG_MIN <= iword os - 2)%Z ->
  decrease_indent os = Ret tt (mk_ostream (out os) (iword os - 2)).
Proof.
  intros H. unfold decrease_indent.
  destruct (iword os - 2 <? LONG_MIN)%Z eqn:E; [|reflexivity].
  apply Z.ltb_lt in E. lia.
Qed.

Section WriterFacts.

Context {P : Platform}.

Lemma object_members_written obj :
  Forall (fun kv => written (snd kv)) obj ->
  forall first os,
    (0 <= iword os)%Z ->
    Forall (fun kv =>
              (iword os + 2 * Z.of_nat (depth (snd kv)) <= LONG_MAX)%Z) obj ->
    object_members write_value first obj os
    = Ret tt
        (put (lines first [","; nl]
                (map (fun child => spaces (iword os) ++ child)
                   (map (fun kv => quoted (fst kv) ++ [":"; " "]
                                   ++ layout (iword os) (snd kv)) obj)))
           os).
Proof.
  induction 1 as [|[key val] obj Hval _ IH]; intros first os Hd Hfit.
  - destruct first; simpl; now rewrite put_nil.
  - inversion Hfit as [|? ? Hfit1 Hfit2]; subst. simpl in Hfit1, Hval.
    cbn [object_members].
    assert (Hd1 : iword (if first then os else put [","; nl] os) = iword os)
      by (destruct first; reflexivity).
    rewrite write_indent_ok by (rewrite Hd1; exact Hd).
    cbn [bind]. rewrite write_string_quoted, !put_put.
    rewrite Hval by (simpl; rewrite Hd1; assumption).
    cbn [bind]. rewrite IH by (simpl; rewrite Hd1; assumption).
    f_equal. simpl iword. rewrite !Hd1, !put_put.
    destruct first; unfold put; simpl; f_equal;
      rewrite <- ?app_assoc; simpl; rewrite <- ?app_assoc; reflexivity.
Qed.

Lemma array_elements_written ar :
  Forall written ar ->
  forall first os,
    (0 <= iword os)%Z ->
    Forall (fun x => (iword os + 2 * Z.of_nat (depth x) <= LONG_MAX)%Z) ar ->
    array_elements write_value first ar os
    = Ret tt
        (put (lines first [","; nl]
                (map (fun child => spaces (iword os) ++ child)
                   (map (layout (iword os)) ar)))
           os).
Proof.
  induction 1 as [|el ar Hel _ IH]; intros first os Hd Hfit.
  - destruct first; simpl; now rewrite put_nil.
  - inversion Hfit as [|? ? Hfit1 Hfit2]; subst.
    cbn [array_elements].
    assert (Hd1 : iword (if first then os else put [","; nl] os) = iword os)
      by (destruct first; reflexivity).
    rewrite write_indent_ok by (rewrite Hd1; exact Hd).
    cbn [bind].
    rewrite Hel by (simpl; rewrite Hd1; assumption).
    cbn [bind]. rewrite IH by (simpl; rewrite Hd1; assumption).
    f_equal. simpl iword. rewrite !Hd1, !put_put.
    destruct first; unfold put; simpl; f_equal;
      rewrite <- ?app_assoc; simpl; rewrite <- ?app_assoc; reflexivity.
Qed.

Lemma write_value_written v : written v.
Proof.
  induction v as [obj IH|ar IH|str|x| | |] using value_ind;
    intros os Hd Hfit; try reflexivity.
  - cbn [write_value]. unfold write_object.
    assert (Hdepth : 1 <= depth (Object obj)) by (cbn [depth]; lia).
    rewrite increase_indent_ok by (simpl; lia). cbn [bind].
    rewrite (object_members_written obj IH).
    + cbn [bind]. rewrite decrease_indent_ok by (simpl; unfold LONG_MIN; lia).
      cbn [bind]. rewrite write_indent_ok by (simpl; lia). cbn [bind].
      f_equal. cbn [layout]. unfold put, collection. cbn [out iword].
      replace (iword os + 2 - 2)%Z with (iword os) by lia.
      f_equal. rewrite <- !app_assoc. reflexivity.
    + simpl; lia.
    + simpl iword. eapply Forall_impl; [|apply depth_object].
      cbv beta. intros kv Hkv. lia.
  - cbn [write_value]. unfold write_array.
    assert (Hdepth : 1 <= depth (Array ar)) by (cbn [depth]; lia).
    rewrite increase_indent_ok by (simpl; lia). cbn [bind].
    rewrite (array_elements_written ar IH).
    + cbn [bind]. rewrite decrease_indent_ok by (simpl; unfold LONG_MIN; lia).
      cbn [bind]. rewrite write_indent_ok by (simpl; lia). cbn [bind].
      f_equal. cbn [layout]. unfold put, collection. cbn [out iword].
      replace (iword os + 2 - 2)%Z with (iword os) by lia.
      f_equal. rewrite <- !app_assoc. reflexivity.
    + simpl; lia.
    + simpl iword. eapply Forall_impl; [|apply depth_array].
      cbv beta. intros kv Hkv. lia.
  - cbn [write_value]. now rewrite write_string_quoted.
Qed.

End WriterFacts.

(** ** Reading back what the serializer wrote *)

Lemma spaces_isspace d : forallb isspace (spaces d) = true.
Proof.
  unfold spaces. induction (Z.to_nat d) as [|n IH]; simpl; auto.
Qed.

Lemma read_one_character_skip ch ws g r :
  forallb isspace ws = true -> isspace ch = false ->
  read_one_character ch (reading g (ws ++ ch :: r))
  = Ret tt (reading (ch :: rev ws ++ g) r).
Proof.
  intros Hws Hch. unfold read_one_character, reading.
  rewrite (get_char_skip ws g ch r Hws Hch).
  now rewrite Ascii.eqb_refl.
Qed.

(** One round of the loop of the string parser reads back one character of
    the string, escaped or not. *)
Lemma string_loop_step c n s0 g r :
  string_loop (S n) s0
    (mk_istream g (two_character_escape c ++ r) false false false false)
  = string_loop n (s0 ++ [c])
      (mk_istream (rev (two_character_escape c) ++ g) r
         false false false false).
Proof.
  destruct c as [[] [] [] [] [] [] [] []]; reflexivity.
Qed.

Lemma string_loop_quoted str n s0 g tail :
  length str < n ->
  string_loop n s0
    (mk_istream g (flat_map two_character_escape str ++ dq :: tail)
       false false false false)
  = Ret (s0 ++ str)
      (mk_istream (dq :: rev (flat_map two_character_escape str) ++ g) tail
         false false false false).
Proof.
  revert n s0 g. induction str as [|c str IH]; intros n s0 g Hn.
  - destruct n as [|n]; [inversion Hn|].
    rewrite app_nil_r. reflexivity.
  - destruct n as [|n]; [inversion Hn|].
    cbn [flat_map]. rewrite <- app_assoc, string_loop_step.
    rewrite IH by (simpl in Hn; lia).
    rewrite rev_app_distr, <- !app_assoc. reflexivity.
Qed.

(** The string parser reads a quoted string back, after any white space. *)
Lemma read_string_quoted str n s0 ws g tail :
  length str < n -> forallb isspace ws = true ->
  read_string n s0 (reading g (ws ++ quoted str ++ tail))
  = Ret (s0 ++ str)
      (reading (dq :: rev (flat_map two_character_escape str)
                ++ dq :: rev ws ++ g) tail).
Proof.
  intros Hn Hws. unfold read_string, quoted.
  cbn [app]. rewrite read_one_character_skip by (assumption || reflexivity).
  cbn [bind]. unfold reading, set_skipws. cbn [got rest eofbit failbit badbit].
  rewrite <- app_assoc. cbn [app].
  rewrite string_loop_quoted by assumption. reflexivity.
Qed.

Lemma length_escape str :
  length str <= length (flat_map two_character_escape str).
Proof.
  induction str as [|c str IH]; simpl; [lia|].
  rewrite length_app.
  assert (1 <= length (two_character_escape c))
    by (destruct c as [[] [] [] [] [] [] [] []]; simpl; lia).
  lia.
Qed.

Lemma landed_reading g tail : landed tail (reading g tail).
Proof. exists g, false. split; [reflexivity | auto]. Qed.

Ltac land :=
  do 2 eexists; split; [reflexivity | try reflexivity; try discriminate;
                                       try (intros X; now elim X)].

Lemma read_true_back g tail :
  follows tail ->
  exists st, read_true (reading g (chars "true" ++ tail)) = Ret tt st
             /\ landed tail st.
Proof.
  intros [->|[[t ->]|[t ->]]]; eexists; (split; [reflexivity|]); land.
Qed.

Lemma read_false_back g tail :
  follows tail ->
  exists st, read_false (reading g (chars "false" ++ tail)) = Ret tt st
             /\ landed tail st.
Proof.
  intros [->|[[t ->]|[t ->]]]; eexists; (split; [reflexivity|]); land.
Qed.

Lemma read_null_back g tail :
  follows tail ->
  exists st, read_null (reading g (chars "null" ++ tail)) = Ret tt st
             /\ landed tail st.
Proof.
  intros [->|[[t ->]|[t ->]]]; eexists; (split; [reflexivity|]); land.
Qed.

Section ReadBack.

Context {P : Platform}.

(** The dispatch of [operator>>(istream&, value&)] on the character it
    peeks at. *)
Lemma read_value_peek f val ws g c r :
  forallb isspace ws = true -> isspace c = false ->
  read_value (S f) val (reading g (ws ++ c :: r))
  = let st2 := reading (rev ws ++ g) (c :: r) in
    if c =? "{" then
      do (obj, st3) <- read_object (read_value f) f [] st2;
      Ret (Object obj) st3
    else if c =? "[" then
      do (ar, st3) <- read_array (read_value f) f [] st2;
      Ret (Array ar) st3
    else if c =? dq then
      do (str, st3) <- read_string f [] st2;
      Ret (String str) st3
    else if c =? "t" then
      do (_, st3) <- read_true st2; Ret True_ st3
    else if c =? "f" then
      do (_, st3) <- read_false st2; Ret False_ st3
    else if c =? "n" then
      do (_, st3) <- read_null st2; Ret Null st3
    else if isdigit c || (c =? "-") then
      let (x, st3) := get_number number_zero st2 in
      Ret (Number x) st3
    else Ret val (set_failbit st2).
Proof.
  intros Hws Hc. cbn [read_value]. unfold reading.
  rewrite (get_char_skip ws g c r Hws Hc). reflexivity.
Qed.

Lemma number_start c :
  (isdigit c || (c =? "-")) = true ->
  isspace c = false /\ (c =? "{") = false /\ (c =? "[") = false /\
  (c =? dq) = false /\ (c =? "t") = false /\ (c =? "f") = false /\
  (c =? "n") = false.
Proof.
  destruct c as [[] [] [] [] [] [] [] []]; vm_compute; intros H;
    try discriminate H; repeat split.
Qed.

Lemma get_number_back x g tail :
  roundtrips x -> follows tail ->
  exists st, get_number number_zero (reading g (num_put x ++ tail)) = (x, st)
             /\ landed tail st.
Proof.
  intros [(c & r & Hput & Hc) Hget] Hf.
  apply number_start in Hc. destruct Hc as (Hsp & _).
  unfold get_number.
  assert (Hs : sentry false (reading g (num_put x ++ tail))
               = (true, reading g (num_put x ++ tail))).
  { rewrite Hput. cbn [app]. unfold sentry, reading. simpl. now rewrite Hsp. }
  rewrite Hs. cbn [reading rest got]. rewrite (Hget tail Hf).
  rewrite firstn_app, firstn_all, Nat.sub_diag, firstn_O, app_nil_r.
  rewrite skipn_app, skipn_all, Nat.sub_diag, skipn_O. cbn [app].
  rewrite length_app.
  destruct tail as [|t0 tail].
  - cbn [length]. rewrite Nat.add_0_r, Nat.leb_refl.
    eexists. split; [reflexivity | land].
  - cbn [length].
    replace (length (num_put x) + S (length tail) <=? length (num_put x))%nat
      with false by (symmetry; apply Nat.leb_gt; lia).
    eexists. split; [reflexivity | land].
Qed.

End ReadBack.

Ltac flatten_text :=
  repeat first [rewrite <- !app_assoc | progress cbn [app]].

Ltac flatten_text_in H :=
  repeat first [rewrite <- !app_assoc in H | progress cbn [app] in H].

Ltac count_lengths :=
  repeat first [rewrite !length_app | progress cbn [length]].

Section ReadBackCollections.

Context {P : Platform}.

Lemma lines_elements d ar :
  lines false [","; nl] (map (fun child => spaces d ++ child)
                           (map (layout d) ar))
  = flat_map (next_element d) ar.
Proof.
  unfold lines. induction ar as [|x ar IH]; cbn [map flat_map];
    [reflexivity|]. now rewrite IH.
Qed.

Lemma lines_members d obj :
  lines false [","; nl]
    (map (fun child => spaces d ++ child)
       (map (fun kv => quoted (fst kv) ++ [":"; " "] ++ layout d (snd kv)) obj))
  = flat_map (next_member d) obj.
Proof.
  unfold lines. induction obj as [|x obj IH]; cbn [map flat_map];
    [reflexivity|]. now rewrite IH.
Qed.

Lemma get_char_reading ws g c r :
  forallb isspace ws = true -> isspace c = false ->
  get_char (reading g (ws ++ c :: r)) = (Some c, reading (c :: rev ws ++ g) r).
Proof. apply get_char_skip. Qed.

(** The loop of the array parser on the elements the serializer wrote. *)
Lemma array_loop_back f d ar :
  Forall reads ar ->
  forall x, reads x ->
  forall n val acc g ws wsc tail,
    forallb isspace ws = true -> forallb isspace wsc = true ->
    n <= f ->
    length (ws ++ layout d x ++ flat_map (next_element d) ar
            ++ nl :: wsc ++ "]" :: tail) < n ->
    exists g',
      array_loop (read_value f) n val acc
        (reading g (ws ++ layout d x ++ flat_map (next_element d) ar
                    ++ nl :: wsc ++ "]" :: tail))
      = Ret (acc ++ x :: ar) (reading g' ("]" :: tail)).
Proof.
  induction 1 as [|y ar Hy _ IH];
    intros x Hx n val acc g ws wsc tail Hws Hwsc Hnf Hlen.
  - cbn [flat_map app] in *.
    destruct n as [|n]; [inversion Hlen|]. cbn [array_loop].
    assert (Hfo : follows (nl :: wsc ++ "]" :: tail)) by (right; left; eauto).
    destruct (Hx d f val g ws _ Hws Hfo ltac:(lia))
      as (st & Hrd & g1 & e & -> & He).
    rewrite Hrd. cbn [bind]. rewrite He by discriminate.
    change (mk_istream g1 (nl :: wsc ++ "]" :: tail) false false false true)
      with (reading g1 ((nl :: wsc) ++ "]" :: tail)).
    cbn [fail reading failbit badbit orb].
    change (mk_istream g1 ((nl :: wsc) ++ "]" :: tail) false false false true)
      with (reading g1 ((nl :: wsc) ++ "]" :: tail)).
    rewrite get_char_reading by (assumption || reflexivity).
    eexists. reflexivity.
  - cbn [flat_map] in *. unfold next_element at 1 in Hlen.
    unfold next_element at 1.
    cbn [app] in *. rewrite <- !app_assoc in Hlen. rewrite <- !app_assoc.
    destruct n as [|n]; [inversion Hlen|]. cbn [array_loop].
    match goal with
    | |- context [reading g (ws ++ layout d x ++ ?t)] => set (tail_x := t) in *
    end.
    assert (Hfo : follows tail_x) by (right; right; eexists; reflexivity).
    destruct (Hx d f val g ws _ Hws Hfo ltac:(lia))
      as (st & Hrd & g1 & e & -> & He).
    rewrite Hrd. cbn [bind]. rewrite He by discriminate.
    cbn [fail failbit badbit orb]. subst tail_x.
    match goal with
    | |- context [get_char (mk_istream g1 ("," :: ?t) _ _ _ _)] =>
        change (get_char (mk_istream g1 ("," :: t) false false false true))
          with (get_char (reading g1 ([] ++ "," :: t)))
    end.
    rewrite get_char_reading by reflexivity.
    rewrite Ascii.eqb_refl.
    specialize (IH y Hy n (moved_from x) (acc ++ [x]) ("," :: rev [] ++ g1)
                  (nl :: spaces d) wsc tail).
    cbn [app] in IH. rewrite <- !app_assoc in IH.
    destruct IH as (g' & Hloop).
    + cbn [forallb]. now rewrite spaces_isspace.
    + exact Hwsc.
    + lia.
    + revert Hlen. count_lengths. lia.
    + rewrite Hloop. eexists. reflexivity.
Qed.

End ReadBackCollections.

Lemma increasing_lt_all k l : increasing (k :: l) -> Forall (lt k) l.
Proof.
  revert k. induction l as [|k' l IH]; intros k H; constructor.
  - apply H.
  - destruct H as [Hk H]. eapply Forall_impl; [|apply IH; exact H].
    intros a Ha. eapply lt_trans; eassumption.
Qed.

Lemma increasing_app_lt a k b :
  increasing (a ++ k :: b) -> Forall (fun k' => lt k' k) a.
Proof.
  induction a as [|k0 a IH]; intros H; constructor.
  - apply increasing_lt_all in H. rewrite Forall_forall in H.
    apply H. apply in_or_app. right. now left.
  - apply IH. change ((k0 :: a) ++ k :: b) with (k0 :: (a ++ k :: b)) in H.
    apply increasing_cons in H. apply H.
Qed.

Section ReadBackObjects.

Context {P : Platform}.

(** The member parser on a member the serializer wrote. *)
Lemma read_member_back f d kv n m g ws tail :
  reads (snd kv) -> fst m = [] ->
  forallb isspace ws = true -> follows tail ->
  length (ws ++ member_text d kv ++ tail) <= n ->
  length (ws ++ member_text d kv ++ tail) < f ->
  exists st,
    read_member (read_value f) n m (reading g (ws ++ member_text d kv ++ tail))
    = Ret kv st
    /\ landed tail st.
Proof.
  destruct kv as [k v], m as [k0 v0]. cbn [fst snd].
  intros Hv -> Hws Hfo Hn Hf.
  unfold member_text, quoted in *. cbn [fst snd app] in *.
  rewrite <- !app_assoc in *. cbn [app] in *.
  unfold read_member. rewrite get_char_reading by (assumption || reflexivity).
  change (unget (reading (dq :: rev ws ++ g) ?r))
    with (reading (rev ws ++ g) (dq :: r)).
  rewrite Ascii.eqb_refl. cbn [fst snd].
  pose proof (read_string_quoted k n [] [] (rev ws ++ g)
                (":" :: " " :: layout d v ++ tail)) as Hs.
  unfold quoted in Hs. cbn [app] in Hs. rewrite <- !app_assoc in Hs.
  cbn [app] in Hs. rewrite Hs; clear Hs.
  - cbn [bind].
    match goal with
    | |- context [read_one_character ":" (reading ?g0 (":" :: ?r))] =>
        change (read_one_character ":" (reading g0 (":" :: r)))
          with (read_one_character ":" (reading g0 ([] ++ ":" :: r)));
        rewrite (read_one_character_skip ":" [] g0 r eq_refl eq_refl)
    end.
    cbn [bind].
    match goal with
    | |- context [read_value f v0 (reading ?g0 (" " :: ?r))] =>
        change (read_value f v0 (reading g0 (" " :: r)))
          with (read_value f v0 (reading g0 ([" "] ++ r)))
    end.
    edestruct (Hv d f v0) as (st & Hrd & Hland);
      [| exact Hfo | | rewrite Hrd; cbn [bind]; eexists; split;
                        [reflexivity | exact Hland]].
    + reflexivity.
    + revert Hf. count_lengths. lia.
  - pose proof (length_escape k) as Hk. revert Hn. count_lengths. lia.
  - reflexivity.
Qed.

(** The loop of the object parser on the members the serializer wrote: the
    keys come in increasing order, so every member goes to the end of the
    map. *)
Lemma object_loop_back f d obj :
  Forall (fun kv => reads (snd kv)) obj ->
  forall kv, reads (snd kv) ->
  forall n m acc g ws wsc tail,
    fst m = [] ->
    increasing (keys (acc ++ kv :: obj)) ->
    forallb isspace ws = true -> forallb isspace wsc = true ->
    n <= f ->
    length (ws ++ member_text d kv ++ flat_map (next_member d) obj
            ++ nl :: wsc ++ "}" :: tail) < n ->
    exists g',
      object_loop (read_value f) n m acc
        (reading g (ws ++ member_text d kv ++ flat_map (next_member d) obj
                    ++ nl :: wsc ++ "}" :: tail))
      = Ret (acc ++ kv :: obj) (reading g' ("}" :: tail)).
Proof.
  induction 1 as [|kv' obj Hkv' _ IH];
    intros kv Hkv n m acc g ws wsc tail Hm Hinc Hws Hwsc Hnf Hlen.
  - cbn [flat_map app] in *.
    destruct n as [|n]; [inversion Hlen|]. cbn [object_loop].
    assert (Hfo : follows (nl :: wsc ++ "}" :: tail)) by (right; left; eauto).
    destruct (read_member_back f d kv n m g ws _ Hkv Hm Hws Hfo
                ltac:(lia) ltac:(lia))
      as (st & Hrd & g1 & e & -> & He).
    rewrite Hrd. cbn [bind]. rewrite He by discriminate.
    cbn [fail failbit badbit orb].
    rewrite map_insert_last.
    2:{ unfold keys in Hinc. rewrite map_app in Hinc. cbn [map] in Hinc.
        apply increasing_app_lt in Hinc. exact Hinc. }
    cbn [orb].
    change (mk_istream g1 (nl :: wsc ++ "}" :: tail) false false false true)
      with (reading g1 ((nl :: wsc) ++ "}" :: tail)).
    rewrite get_char_reading by (assumption || reflexivity).
    destruct kv. eexists. reflexivity.
  - cbn [flat_map] in *. unfold next_member at 1 in Hlen.
    unfold next_member at 1.
    cbn [app] in *. rewrite <- !app_assoc in Hlen. rewrite <- !app_assoc.
    destruct n as [|n]; [inversion Hlen|]. cbn [object_loop].
    match goal with
    | |- context [reading g (ws ++ member_text d kv ++ ?t)] =>
        set (tail_x := t) in *
    end.
    assert (Hfo : follows tail_x) by (right; right; eexists; reflexivity).
    destruct (read_member_back f d kv n m g ws _ Hkv Hm Hws Hfo
                ltac:(lia) ltac:(lia))
      as (st & Hrd & g1 & e & -> & He).
    rewrite Hrd. cbn [bind]. rewrite He by discriminate.
    cbn [fail failbit badbit orb]. subst tail_x.
    rewrite map_insert_last.
    2:{ unfold keys in Hinc. rewrite map_app in Hinc. cbn [map] in Hinc.
        apply increasing_app_lt in Hinc. exact Hinc. }
    cbn [orb].
    match goal with
    | |- context [get_char (mk_istream g1 ("," :: ?t) _ _ _ _)] =>
        change (get_char (mk_istream g1 ("," :: t) false false false true))
          with (get_char (reading g1 ([] ++ "," :: t)))
    end.
    rewrite get_char_reading by reflexivity.
    rewrite Ascii.eqb_refl.
    specialize (IH kv' Hkv' n (member_moved_from kv)
                  (acc ++ [(fst kv, snd kv)]) ("," :: rev [] ++ g1)
                  (nl :: spaces d) wsc tail).
    cbn [app] in IH. rewrite <- !app_assoc in IH.
    destruct IH as (g' & Hloop).
    + reflexivity.
    + destruct kv. exact Hinc.
    + cbn [forallb]. now rewrite spaces_isspace.
    + exact Hwsc.
    + lia.
    + revert Hlen. count_lengths. lia.
    + rewrite Hloop. destruct kv. eexists. reflexivity.
Qed.

End ReadBackObjects.

Section ReadBackValue.

Context {P : Platform}.

Lemma layout_object_nil d :
  layout d (Object []) = "{" :: nl :: nl :: spaces d ++ ["}"].
Proof. reflexivity. Qed.

Lemma layout_object_cons d kv obj :
  layout d (Object (kv :: obj))
  = "{" :: (nl :: spaces (d + 2)) ++ member_text (d + 2) kv
        ++ flat_map (next_member (d + 2)) obj ++ nl :: spaces d ++ ["}"].
Proof.
  cbn [layout]. unfold collection, join. cbn [map].
  change (flat_map (fun other => [","; nl] ++ other) ?l)
    with (lines false [","; nl] l).
  rewrite lines_members. unfold member_text. cbn [app].
  rewrite <- !app_assoc. reflexivity.
Qed.

Lemma layout_array_nil d :
  layout d (Array []) = "[" :: nl :: nl :: spaces d ++ ["]"].
Proof. reflexivity. Qed.

Lemma layout_array_cons d x ar :
  layout d (Array (x :: ar))
  = "[" :: (nl :: spaces (d + 2)) ++ layout (d + 2) x
        ++ flat_map (next_element (d + 2)) ar ++ nl :: spaces d ++ ["]"].
Proof.
  cbn [layout]. unfold collection, join. cbn [map].
  change (flat_map (fun other => [","; nl] ++ other) ?l)
    with (lines false [","; nl] l).
  rewrite lines_elements. cbn [app].
  rewrite <- !app_assoc. reflexivity.
Qed.

Lemma read_value_object f val ws g r :
  forallb isspace ws = true ->
  read_value (S f) val (reading g (ws ++ "{" :: r))
  = do (obj, st3) <-
      read_object (read_value f) f [] (reading (rev ws ++ g) ("{" :: r));
    Ret (Object obj) st3.
Proof.
  intros H. rewrite read_value_peek by (assumption || reflexivity).
  reflexivity.
Qed.

Lemma read_value_array f val ws g r :
  forallb isspace ws = true ->
  read_value (S f) val (reading g (ws ++ "[" :: r))
  = do (ar, st3) <-
      read_array (read_value f) f [] (reading (rev ws ++ g) ("[" :: r));
    Ret (Array ar) st3.
Proof.
  intros H. rewrite read_value_peek by (assumption || reflexivity).
  reflexivity.
Qed.

Lemma read_value_string f val ws g r :
  forallb isspace ws = true ->
  read_value (S f) val (reading g (ws ++ dq :: r))
  = do (str, st3) <- read_string f [] (reading (rev ws ++ g) (dq :: r));
    Ret (String str) st3.
Proof.
  intros H. rewrite read_value_peek by (assumption || reflexivity).
  reflexivity.
Qed.

Lemma read_value_true f val ws g r :
  forallb isspace ws = true ->
  read_value (S f) val (reading g (ws ++ "t" :: r))
  = do (_, st3) <- read_true (reading (rev ws ++ g) ("t" :: r));
    Ret True_ st3.
Proof.
  intros H. rewrite read_value_peek by (assumption || reflexivity).
  reflexivity.
Qed.

Lemma read_value_false f val ws g r :
  forallb isspace ws = true ->
  read_value (S f) val (reading g (ws ++ "f" :: r))
  = do (_, st3) <- read_false (reading (rev ws ++ g) ("f" :: r));
    Ret False_ st3.
Proof.
  intros H. rewrite read_value_peek by (assumption || reflexivity).
  reflexivity.
Qed.

Lemma read_value_null f val ws g r :
  forallb isspace ws = true ->
  read_value (S f) val (reading g (ws ++ "n" :: r))
  = do (_, st3) <- read_null (reading (rev ws ++ g) ("n" :: r));
    Ret Null st3.
Proof.
  intros H. rewrite read_value_peek by (assumption || reflexivity).
  reflexivity.
Qed.

Lemma read_value_number f val ws g c r :
  forallb isspace ws = true -> (isdigit c || (c =? "-")) = true ->
  read_value (S f) val (reading g (ws ++ c :: r))
  = let (x, st3) := get_number number_zero (reading (rev ws ++ g) (c :: r)) in
    Ret (Number x) st3.
Proof.
  intros H Hc. pose proof (number_start c Hc) as (Hs & H1 & H2 & H3 & H4 & H5 & H6).
  rewrite read_value_peek by assumption.
  cbv zeta. now rewrite H1, H2, H3, H4, H5, H6, Hc.
Qed.

(** Every well-formed value whose numbers round-trip is read back from the
    text the serializer writes for it. *)
Lemma serialized_reads v :
  wf_value v -> Forall roundtrips (numbers v) -> reads v.
Proof.
  induction v as [obj IH|ar IH|str|x| | |] using value_ind; intros Hwf Hnum.
  - (* object *)
    apply wf_object in Hwf. destruct Hwf as [Hinc Hwf].
    rewrite numbers_object in Hnum.
    assert (Hreads : Forall (fun kv => reads (snd kv)) obj).
    { clear Hinc. induction obj as [|kv obj IHobj]; constructor.
      - inversion IH; inversion Hwf; subst. cbn [flat_map] in Hnum.
        apply Forall_app in Hnum. tauto.
      - inversion IH; inversion Hwf; subst. cbn [flat_map] in Hnum.
        apply Forall_app in Hnum. apply IHobj; tauto. }
    clear IH Hwf Hnum.
    intros d fuel val g ws tail Hws Hfo Hlen.
    destruct fuel as [|f]; [inversion Hlen|].
    destruct obj as [|kv obj].
    + rewrite layout_object_nil in *. cbn [app] in *.
      rewrite read_value_object by assumption.
      unfold read_object.
      change (reading (rev ws ++ g) ("{" :: ?r))
        with (reading (rev ws ++ g) ([] ++ "{" :: r)).
      rewrite read_one_character_skip by reflexivity. cbn [bind].
      destruct f as [|f]; [revert Hlen; count_lengths; lia|].
      cbn [object_loop]. unfold read_member.
      rewrite <- app_assoc. cbn [app].
      change (nl :: nl :: spaces d ++ "}" :: tail)
        with ((nl :: nl :: spaces d) ++ "}" :: tail).
      rewrite get_char_reading
        by (reflexivity || (cbn [forallb]; now rewrite spaces_isspace)).
      eexists. split; [reflexivity | apply landed_reading].
    + rewrite layout_object_cons in *. flatten_text. flatten_text_in Hlen.
      rewrite read_value_object by assumption.
      unfold read_object.
      change (reading (rev ws ++ g) ("{" :: ?r))
        with (reading (rev ws ++ g) ([] ++ "{" :: r)).
      rewrite read_one_character_skip by reflexivity. cbn [bind].
      inversion Hreads as [|? ? Hkv Hobj]; subst.
      change (nl :: spaces (d + 2) ++ ?r) with ((nl :: spaces (d + 2)) ++ r).
      destruct (object_loop_back f (d + 2) obj Hobj kv Hkv f
                  (@nil ascii, value_default) [] ("{" :: rev [] ++ rev ws ++ g)
                  (nl :: spaces (d + 2)) (spaces d) tail)
        as (g' & Hloop).
      * reflexivity.
      * exact Hinc.
      * cbn [forallb]. now rewrite spaces_isspace.
      * apply spaces_isspace.
      * exact (le_n _).
      * revert Hlen. count_lengths. lia.
      * rewrite Hloop. cbn [bind app].
        change (clear (reading g' ("}" :: tail)))
          with (reading g' ([] ++ "}" :: tail)).
        rewrite read_one_character_skip by reflexivity. cbn [bind].
        eexists. split; [reflexivity | apply landed_reading].
  - (* array *)
    apply wf_array in Hwf. rewrite numbers_array in Hnum.
    assert (Hreads : Forall reads ar).
    { induction ar as [|y ar IHar]; constructor.
      - inversion IH; inversion Hwf; subst. cbn [flat_map] in Hnum.
        apply Forall_app in Hnum. tauto.
      - inversion IH; inversion Hwf; subst. cbn [flat_map] in Hnum.
        apply Forall_app in Hnum. apply IHar; tauto. }
    clear IH Hwf Hnum.
    intros d fuel val g ws tail Hws Hfo Hlen.
    destruct fuel as [|f]; [inversion Hlen|].
    destruct ar as [|x ar].
    + rewrite layout_array_nil in *. cbn [app] in *.
      rewrite read_value_array by assumption.
      unfold read_array.
      change (reading (rev ws ++ g) ("[" :: ?r))
        with (reading (rev ws ++ g) ([] ++ "[" :: r)).
      rewrite read_one_character_skip by reflexivity. cbn [bind].
      destruct f as [|f]; [revert Hlen; count_lengths; lia|].
      cbn [array_loop].
      rewrite <- app_assoc. cbn [app].
      change (nl :: nl :: spaces d ++ "]" :: tail)
        with ((nl :: nl :: spaces d) ++ "]" :: tail).
      destruct f as [|f]; [revert Hlen; count_lengths; lia|].
      rewrite read_value_peek
        by (reflexivity || (cbn [forallb]; now rewrite spaces_isspace)).
      eexists. split; [reflexivity | apply landed_reading].
    + rewrite layout_array_cons in *. flatten_text. flatten_text_in Hlen.
      rewrite read_value_array by assumption.
      unfold read_array.
      change (reading (rev ws ++ g) ("[" :: ?r))
        with (reading (rev ws ++ g) ([] ++ "[" :: r)).
      rewrite read_one_character_skip by reflexivity. cbn [bind].
      inversion Hreads as [|? ? Hx Har]; subst.
      change (nl :: spaces (d + 2) ++ ?r) with ((nl :: spaces (d + 2)) ++ r).
      destruct (array_loop_back f (d + 2) ar Har x Hx f
                  value_default [] ("[" :: rev [] ++ rev ws ++ g)
                  (nl :: spaces (d + 2)) (spaces d) tail)
        as (g' & Hloop).
      * cbn [forallb]. now rewrite spaces_isspace.
      * apply spaces_isspace.
      * exact (le_n _).
      * revert Hlen. count_lengths. lia.
      * rewrite Hloop. cbn [bind app].
        change (clear (reading g' ("]" :: tail)))
          with (reading g' ([] ++ "]" :: tail)).
        rewrite read_one_character_skip by reflexivity. cbn [bind].
        eexists. split; [reflexivity | apply landed_reading].
  - (* string *)
    intros d fuel val g ws tail Hws Hfo Hlen.
    destruct fuel as [|f]; [inversion Hlen|].
    cbn [layout] in *. unfold quoted at 1. cbn [app].
    rewrite read_value_string by assumption.
    pose proof (read_string_quoted str f [] [] (rev ws ++ g) tail) as Hs.
    unfold quoted at 1 in Hs. cbn [app] in Hs. rewrite Hs.
    + cbn [bind app]. eexists. split; [reflexivity | apply landed_reading].
    + pose proof (length_escape str). revert Hlen. unfold quoted.
      count_lengths. lia.
    + reflexivity.
  - (* number *)
    inversion Hnum as [|? ? Hx _]; subst.
    intros d fuel val g ws tail Hws Hfo Hlen.
    destruct fuel as [|f]; [inversion Hlen|].
    cbn [layout] in *.
    destruct Hx as [(c & r & Hput & Hc) Hget].
    assert (Hx : roundtrips x) by (split; eauto).
    destruct (get_number_back x (rev ws ++ g) tail Hx Hfo)
      as (st & Hnum' & Hland).
    rewrite Hput in *. cbn [app] in *.
    rewrite read_value_number by assumption.
    rewrite Hnum'. eexists. split; [reflexivity | exact Hland].
  - (* true *)
    intros d fuel val g ws tail Hws Hfo Hlen.
    destruct fuel as [|f]; [inversion Hlen|].
    destruct (read_true_back (rev ws ++ g) tail Hfo) as (st & Hrd & Hland).
    cbn [layout]. change (chars "true") with ["t"; "r"; "u"; "e"] in *.
    cbn [app] in *. rewrite read_value_true by assumption.
    rewrite Hrd. eexists. split; [reflexivity | exact Hland].
  - (* false *)
    intros d fuel val g ws tail Hws Hfo Hlen.
    destruct fuel as [|f]; [inversion Hlen|].
    destruct (read_false_back (rev ws ++ g) tail Hfo) as (st & Hrd & Hland).
    cbn [layout]. change (chars "false") with ["f"; "a"; "l"; "s"; "e"] in *.
    cbn [app] in *. rewrite read_value_false by assumption.
    rewrite Hrd. eexists. split; [reflexivity | exact Hland].
  - (* null *)
    intros d fuel val g ws tail Hws Hfo Hlen.
    destruct fuel as [|f]; [inversion Hlen|].
    destruct (read_null_back (rev ws ++ g) tail Hfo) as (st & Hrd & Hland).
    cbn [layout]. change (chars "null") with ["n"; "u"; "l"; "l"] in *.
    cbn [app] in *. rewrite read_value_null by assumption.
    rewrite Hrd. eexists. split; [reflexivity | exact Hland].
Qed.

End ReadBackValue.

(** ** What the parser builds *)

Lemma bind_ret {S A B : Type} (m : outcome S A) (k : A -> S -> outcome S B)
    b s :
  bind m k = Ret b s -> exists a s1, m = Ret a s1 /\ k a s1 = Ret b s.
Proof. destruct m; simpl; try discriminate. eauto. Qed.

Lemma map_insert_forall {V : Type} (Q : text * V -> Prop) k v m :
  Forall Q m -> Q (k, v) -> Forall Q (fst (map_insert k v m)).
Proof.
  intros Hm Hkv. induction Hm as [|[k' v'] m Hq Hm IH]; simpl.
  - constructor; auto.
  - destruct (compare k k'); simpl; auto.
    destruct (map_insert k v m); simpl in *. auto.
Qed.

Section Built.

Context {P : Platform}.

Lemma moved_from_wf v : wf_value (moved_from v).
Proof. destruct v; simpl; auto. Qed.

Section Loops.

Variable rv : value -> istream -> outcome istream value.
Hypothesis rv_wf :
  forall val st v st', rv val st = Ret v st' -> wf_value val -> wf_value v.

Lemma read_member_wf n m st m1 st1 :
  read_member rv n m st = Ret m1 st1 -> wf_value (snd m) -> wf_value (snd m1).
Proof.
  unfold read_member. destruct (get_char st) as [[c|] st0]; [|discriminate].
  destruct (c =? dq).
  - intros H Hm.
    apply bind_ret in H. destruct H as (k & s1 & _ & H).
    apply bind_ret in H. destruct H as ([] & s2 & _ & H).
    apply bind_ret in H. destruct H as (v & s3 & Hv & H).
    inversion H; subst. simpl. eapply rv_wf; eassumption.
  - intros H Hm. inversion H; subst. exact Hm.
Qed.

Lemma object_loop_wf n m obj st obj' st' :
  object_loop rv n m obj st = Ret obj' st' ->
  wf_value (snd m) -> wf_object_map obj -> wf_object_map obj'.
Proof.
  revert m obj st. induction n as [|n IH]; intros m obj st; [discriminate|].
  cbn [object_loop]. intros H Hm Hobj.
  apply bind_ret in H. destruct H as (m1 & st1 & Hmem & H).
  apply read_member_wf in Hmem; [|assumption].
  destruct (fail st1); [inversion H; subst; assumption|].
  assert (Hobj1 : wf_object_map (fst (map_insert (fst m1) (snd m1) obj))).
  { destruct Hobj as [Hinc Hall]. split.
    - now apply map_insert_increasing.
    - apply map_insert_forall; assumption. }
  destruct (map_insert (fst m1) (snd m1) obj) as [obj1 inserted].
  cbn [fst] in Hobj1.
  destruct (get_char st1) as [[c|] st2]; [|discriminate].
  destruct (c =? ",").
  - eapply IH; [exact H| |exact Hobj1].
    destruct (inserted || failed_insert_moves); [apply moved_from_wf|].
    exact Hmem.
  - inversion H; subst. exact Hobj1.
Qed.

(** A value the map holds is still there after the loop: no later member
    replaces it. *)
Lemma object_loop_keeps n m obj st obj' st' k v :
  object_loop rv n m obj st = Ret obj' st' ->
  increasing (keys obj) -> map_find k obj = Some v ->
  map_find k obj' = Some v.
Proof.
  revert m obj st. induction n as [|n IH]; intros m obj st; [discriminate|].
  cbn [object_loop]. intros H Hinc Hfind.
  apply bind_ret in H. destruct H as (m1 & st1 & _ & H).
  destruct (fail st1); [inversion H; subst; assumption|].
  pose proof (map_insert_increasing _ (fst m1) (snd m1) obj Hinc) as Hinc1.
  pose proof (map_insert_keeps _ (fst m1) k (snd m1) v obj Hinc Hfind)
    as Hfind1.
  destruct (map_insert (fst m1) (snd m1) obj) as [obj1 inserted].
  cbn [fst] in *.
  destruct (get_char st1) as [[c|] st2]; [|discriminate].
  destruct (c =? ",").
  - eapply IH; eassumption.
  - inversion H; subst. exact Hfind1.
Qed.

Lemma read_object_wf n obj st obj' st' :
  read_object rv n obj st = Ret obj' st' ->
  wf_object_map obj -> wf_object_map obj'.
Proof.
  unfold read_object. intros H Hobj.
  apply bind_ret in H. destruct H as ([] & st1 & _ & H).
  apply bind_ret in H. destruct H as (obj1 & st2 & Hloop & H).
  apply bind_ret in H. destruct H as ([] & st3 & _ & H).
  inversion H; subst.
  eapply object_loop_wf; [exact Hloop | exact (conj I I) | exact Hobj].
Qed.

Lemma array_loop_wf n val ar st ar' st' :
  array_loop rv n val ar st = Ret ar' st' ->
  wf_value val -> Forall wf_value ar -> Forall wf_value ar'.
Proof.
  revert val ar st. induction n as [|n IH]; intros val ar st; [discriminate|].
  cbn [array_loop]. intros H Hval Har.
  apply bind_ret in H. destruct H as (val1 & st1 & Hv & H).
  apply rv_wf in Hv; [|assumption].
  destruct (fail st1); [inversion H; subst; assumption|].
  assert (Har1 : Forall wf_value (ar ++ [val1])).
  { apply Forall_app. split; [assumption | constructor; auto]. }
  destruct (get_char st1) as [[c|] st2]; [|discriminate].
  destruct (c =? ",").
  - eapply IH; [exact H | apply moved_from_wf | exact Har1].
  - inversion H; subst. exact Har1.
Qed.

Lemma read_array_wf n ar st ar' st' :
  read_array rv n ar st = Ret ar' st' ->
  Forall wf_value ar -> Forall wf_value ar'.
Proof.
  unfold read_array. intros H Har.
  apply bind_ret in H. destruct H as ([] & st1 & _ & H).
  apply bind_ret in H. destruct H as (ar1 & st2 & Hloop & H).
  apply bind_ret in H. destruct H as ([] & st3 & _ & H).
  inversion H; subst.
  eapply array_loop_wf; [exact Hloop | | exact Har].
  simpl. auto.
Qed.



End Loops.

(** Whatever the parser returns is well formed, when what it was given to
    overwrite was. *)
Lemma read_value_wf fuel :
  forall val st v st',
    read_value fuel val st = Ret v st' -> wf_value val -> wf_value v.
Proof.
  induction fuel as [|f IH]; intros val st v st'; [discriminate|].
  cbn [read_value]. destruct (get_char st) as [[c|] st1]; [|discriminate].
  destruct (c =? "{").
  { intros H _. apply bind_ret in H. destruct H as (obj & s1 & Hobj & H).
    inversion H; subst. apply wf_object.
    eapply (read_object_wf (read_value f) IH); [exact Hobj|].
    split; simpl; auto. }
  destruct (c =? "[").
  { intros H _. apply bind_ret in H. destruct H as (ar & s1 & Har & H).
    inversion H; subst. apply wf_array.
    eapply (read_array_wf (read_value f) IH); [exact Har|]. constructor. }
  destruct (c =? dq).
  { intros H _. apply bind_ret in H. destruct H as (str & s1 & _ & H).
    inversion H; subst. exact I. }
  destruct (c =? "t").
  { intros H _. apply bind_ret in H. destruct H as (? & s1 & _ & H).
    inversion H; subst. exact I. }
  destruct (c =? "f").
  { intros H _. apply bind_ret in H. destruct H as (? & s1 & _ & H).
    inversion H; subst. exact I. }
  destruct (c =? "n").
  { intros H _. apply bind_ret in H. destruct H as (? & s1 & _ & H).
    inversion H; subst. exact I. }
  destruct (isdigit c || (c =? "-")).
  - destruct (get_number number_zero (unget st1)) as [x st3].
    intros H _. inversion H; subst. exact I.
  - intros H Hval. inversion H; subst. exact Hval.
Qed.

End Built.

(** ** Running the parser on a given text *)

(** The loops and the number parser, one step at a time. *)
Lemma get_number_next {P : Platform} x0 g c r x n :
  isspace c = false -> num_get (c :: r) = (x, false, n) ->
  (length (c :: r) <=? n)%nat = false ->
  get_number x0 (reading g (c :: r))
  = (x, reading (rev (firstn n (c :: r)) ++ g) (skipn n (c :: r))).
Proof.
  intros Hc Hget Hn. unfold get_number.
  assert (Hs : sentry false (reading g (c :: r)) = (true, reading g (c :: r))).
  { unfold sentry, reading. simpl. now rewrite Hc. }
  rewrite Hs. cbn [reading rest got]. rewrite Hget, Hn. reflexivity.
Qed.

Lemma object_loop_next {P : Platform} rv n m obj st :
  object_loop rv (S n) m obj st
  = do (m1, st1) <- read_member rv n m st;
    if fail st1 then Ret obj st1
    else
      let (obj1, inserted) := map_insert (fst m1) (snd m1) obj in
      let m2 :=
        if inserted || failed_insert_moves then member_moved_from m1
        else m1 in
      match get_char st1 with
      | (None, _) => Undefined
      | (Some c, st2) =>
          if c =? "," then object_loop rv n m2 obj1 st2
          else Ret obj1 (unget st2)
      end.
Proof. reflexivity. Qed.

Lemma array_loop_next {P : Platform} rv n val ar st :
  array_loop rv (S n) val ar st
  = do (val1, st1) <- rv val st;
    if fail st1 then Ret ar st1
    else
      match get_char st1 with
      | (None, _) => Undefined
      | (Some c, st2) =>
          if c =? "," then array_loop rv n (moved_from val1) (ar ++ [val1]) st2
          else Ret (ar ++ [val1]) (unget st2)
      end.
Proof. reflexivity. Qed.

(** A term that does not depend on the platform is replaced by its value. *)
Ltac known t := let t' := eval vm_compute in t in change t with t'.

Ltac known_in t H := let t' := eval vm_compute in t in change t with t' in H.

Ltac run_stream :=
  repeat match goal with
    | |- context [get_char (reading ?g ?r)] => known (get_char (reading g r))
    | |- context [unget (reading ?g ?r)] => known (unget (reading g r))
    | |- context [clear ?st] => known (clear st)
    | |- context [fail (reading ?g ?r)] => known (fail (reading g r))
    | |- context [set_failbit (reading ?g ?r)] =>
        known (set_failbit (reading g r))
    | |- context [read_one_character ?c (reading ?g ?r)] =>
        known (read_one_character c (reading g r))
    | |- context [read_string ?n ?s (reading ?g ?r)] =>
        known (read_string n s (reading g r))
    | |- context [read_true (reading ?g ?r)] => known (read_true (reading g r))
    | |- context [read_false (reading ?g ?r)] =>
        known (read_false (reading g r))
    | |- context [read_null (reading ?g ?r)] => known (read_null (reading g r))
    | |- context [Ascii.eqb ?a ?b] => known (Ascii.eqb a b)
    | |- context [compare ?a ?b] => known (compare a b)
    | |- context [isdigit ?a] => known (isdigit a)
    | |- context [mk_istream ?g ?r false false false true] =>
        change (mk_istream g r false false false true) with (reading g r)
    end.

(** The parser on a text: the dispatch, the loops and the members are
    unfolded one call at a time, the stream operations are evaluated, and
    the scanner's answer is taken from the hypotheses. *)
Ltac run_parser_with known_flag :=
  repeat first
    [ known_flag
    | progress run_stream
    | progress cbv iota beta
    | progress cbn [bind fst snd orb app]
    | rewrite object_loop_next
    | rewrite array_loop_next
    | match goal with
      | |- context [read_value (S ?f) ?val (reading ?g (?c :: ?r))] =>
          change (read_value (S f) val (reading g (c :: r)))
            with (read_value (S f) val (reading g ([] ++ c :: r)));
          rewrite read_value_peek by reflexivity; cbv zeta; cbn [rev app]
      end
    | erewrite get_number_next by first [eassumption | reflexivity];
      cbn [firstn skipn rev app length]
    | progress cbn [map_insert]
    | progress unfold read_object, read_member, read_array ].

Ltac run_parser := run_parser_with fail.

(** [known_flag] rewrites with what is known of [failed_insert_moves], as
    soon as a round of the object loop shows it. *)
Ltac run_parse_with known_flag :=
  unfold parse, parse_object;
  repeat match goal with
    | |- context [json ?s] => known (json s)
    | |- context [chars ?s] => known (chars s)
    | |- context [S (length ?l)] => known (S (length l))
    end;
  unfold istream_of; run_parser_with known_flag.

Ltac run_parse := run_parse_with fail.

(* ================================================================== *)
(** * The claims *)

(** A well-formed value whose numbers round-trip and whose nesting fits the
    indentation counter is written as [layout 0] says and read back from
    that text, the stream not failed. *)
Lemma roundtrip_text {P : Platform} (v : value) :
  wf_value v -> Forall roundtrips (numbers v) ->
  (2 * Z.of_nat (depth v) <= LONG_MAX)%Z ->
  serialize v = Ret tt (mk_ostream (layout 0 v) 0) /\
  exists st, parse (layout 0 v) = Ret v st /\ fail st = false.
Proof.
  intros Hwf Hnum Hdepth. split.
  - unfold serialize.
    rewrite write_value_written;
      [reflexivity | unfold ostream_new; cbn [iword]; lia..].
  - destruct (serialized_reads v Hwf Hnum 0%Z (S (length (layout 0 v)))
                value_default [] [] []) as (st & Hrd & g & e & -> & _).
    + reflexivity.
    + left. reflexivity.
    + cbn [app]. rewrite app_nil_r. apply Nat.lt_succ_diag_r.
    + cbn [app] in Hrd. rewrite app_nil_r in Hrd.
      exists (mk_istream g [] e false false true). split; [exact Hrd|].
      reflexivity.
Qed.

(** C1: Round trip.  For every value tree that the output grammar expresses
    exactly (every object in it has the increasing keys of a [std::map], every
    number in it is written as a token the scanner reads back as the same
    number, and its nesting fits the indentation counter), parsing the text
    that serializing it produced returns a value equal to it, with the
    stream not failed. *)
Theorem parse_serialize_roundtrip {P : Platform} (v : value) :
  wf_value v -> Forall roundtrips (numbers v) ->
  (2 * Z.of_nat (depth v) <= LONG_MAX)%Z ->
  exists os st,
    serialize v = Ret tt os /\ parse (out os) = Ret v st /\ fail st = false.
Proof.
  intros Hwf Hnum Hdepth.
  destruct (roundtrip_text v Hwf Hnum Hdepth) as (Hser & st & Hrd & Hst).
  exists (mk_ostream (layout 0 v) 0), st. auto.
Qed.

(** C6: Idempotent re-serialization.  For every such value tree,
    serializing what parsing its serialized text returned produces the same
    bytes (and leaves the same indentation) as serializing the tree. *)
Theorem reserialize_same_bytes {P : Platform} (v : value) :
  wf_value v -> Forall roundtrips (numbers v) ->
  (2 * Z.of_nat (depth v) <= LONG_MAX)%Z ->
  exists os st v',
    serialize v = Ret tt os /\
    parse (out os) = Ret v' st /\ fail st = false /\
    serialize v' = Ret tt os.
Proof.
  intros Hwf Hnum Hdepth.
  destruct (roundtrip_text v Hwf Hnum Hdepth) as (Hser & st & Hrd & Hst).
  exists (mk_ostream (layout 0 v) 0), st, v. auto.
Qed.

(** C5: Escape round trip.  Every string value, whatever characters it
    holds (the double quote, the backslash, the slash, backspace, form feed,
    new line, carriage return and tab among them), is serialized to a text
    from which the parser returns the identical character sequence. *)
Theorem escape_roundtrip {P : Platform} (str : text) :
  exists os st,
    serialize (String str) = Ret tt os /\
    parse (out os) = Ret (String str) st /\ fail st = false.
Proof.
  destruct (roundtrip_text (String str)) as (Hser & st & Hrd & Hst).
  - exact I.
  - constructor.
  - cbn [depth]. unfold LONG_MAX. lia.
  - exists (mk_ostream (layout 0 (String str)) 0), st. auto.
Qed.

(** C3: Duplicate keys.  [insert] of a key that the object holds is refused
    and leaves the object as it is, and a value that the object holds under
    a key stays under that key whatever members the loop of the object
    parser reads afterwards: the text [{"x":1,"x":2}] is read as the object
    in which x maps to 1.  But the [member] of the loop is declared once, and
    the string parser appends the key to what the member holds: where the
    refused [insert] has not moved from the member, the key of the duplicate is
    still in it, and the member after the duplicate is inserted under the two
    keys put together.  In [{"x":1,"x":2,"x":3}] the third member, a later
    duplicate of x, is then not dropped: its value is in the object under the
    key xx. *)
Theorem later_duplicate_is_not_dropped {P : Platform}
    (one two three : number) :
  scans "1" one -> scans "2" two -> scans "3" three ->
  (forall (obj : object) k v v',
      increasing (keys obj) -> map_find k obj = Some v ->
      map_insert k v' obj = (obj, false)) /\
  (forall rv n m obj st obj' st' k v,
      object_loop rv n m obj st = Ret obj' st' ->
      increasing (keys obj) -> map_find k obj = Some v ->
      map_find k obj' = Some v) /\
  (exists st,
      parse (json "{'x':1,'x':2}") = Ret (Object [(chars "x", Number one)]) st
      /\ fail st = false) /\
  (exists st,
      parse (json "{'x':1,'x':2,'x':3}")
      = Ret (Object
               (if failed_insert_moves then [(chars "x", Number one)]
                else [(chars "x", Number one); (chars "xx", Number three)]))
          st
      /\ fail st = false).
Proof.
  intros H1 H2 H3. split; [|split; [|split]].
  - intros obj k v v' Hinc Hfind. eapply map_insert_present; eassumption.
  - intros rv n m obj st obj' st' k v. apply object_loop_keeps.
  - pose proof (proj1 (H1 (json "'x':2}"))) as A1.
    pose proof (proj2 (H2 [])) as A2.
    known_in (json "'x':2}") A1.
    eexists. run_parse. split; reflexivity.
  - pose proof (proj1 (H1 (json "'x':2,'x':3}"))) as A1.
    pose proof (proj1 (H2 (json "'x':3}"))) as A2.
    pose proof (proj2 (H3 [])) as A3.
    known_in (json "'x':2,'x':3}") A1. known_in (json "'x':3}") A2.
    destruct failed_insert_moves eqn:Hmoves.
    + eexists. run_parse_with ltac:(rewrite Hmoves). split; reflexivity.
    + eexists. run_parse_with ltac:(rewrite Hmoves). split; reflexivity.
Qed.

(** C4: Key order.  In every value the parser returns, the keys of every
    object (the value itself and every object nested in it) increase strictly
    in the lexicographic order of [std::string], whatever the order of the
    members in the text; and when the value is an object, the serializer
    writes its members in that order. *)
Theorem parsed_keys_increase {P : Platform} (s : text) (v : value)
    (st : istream) :
  parse s = Ret v st ->
  wf_value v /\
  forall obj os,
    v = Object obj ->
    (0 <= iword os)%Z ->
    (iword os + 2 * Z.of_nat (depth v) <= LONG_MAX)%Z ->
    increasing (keys obj) /\
    write_value v os
    = Ret tt
        (put (collection (iword os) "{" "}"
                (map (fun kv => quoted (fst kv) ++ [":"; " "]
                                ++ layout (iword os + 2) (snd kv)) obj))
           os).
Proof.
  intros H.
  assert (Hwf : wf_value v).
  { eapply read_value_wf; [exact H|]. exact (conj I I). }
  split; [exact Hwf|].
  intros obj os -> Hd Hfit. split.
  - apply wf_object in Hwf. apply Hwf.
  - now rewrite write_value_written.
Qed.

Lemma steady_ends {A : Type} st (r : outcome istream A) : steady st r -> ends r.
Proof.
  intros [[H1 H2] _]. unfold ends.
  destruct r; eauto; contradiction.
Qed.

(** C2: Totality, as the code has it.  Every parse ends on every input, in
    one of three ways: it returns (a value and a stream whose [failbit] says
    whether the parse failed: there are no error kinds and no positions), or
    it aborts on a failed [assert], or it uses a [char] that a failed
    extraction left indeterminate.  Parsing [{"a": }] returns: the member
    that fails ends the loop, the flag is cleared, the closing brace is read,
    and the result is the empty object with [failbit] clear. *)
Theorem parse_ends {P : Platform} (s : text) :
  ends (parse s) /\ ends (parse_object s) /\
  exists st, parse (json "{'a': }") = Ret (Object []) st /\ fail st = false.
Proof.
  split; [|split].
  - apply (steady_ends (istream_of s)). apply read_value_steady.
    apply Nat.lt_succ_diag_r.
  - apply (steady_ends (istream_of s)).
    apply read_object_steady with (f := S (length s)).
    + intros val st Hst. now apply read_value_steady.
    + exact (le_n _).
    + apply Nat.le_succ_diag_r.
  - eexists. run_parse. split; reflexivity.
Qed.

(** C7: Literals and what follows them.  A comma that ends the word is
    given back to the stream before the word is compared; a closing bracket
    that ends the word is not: it stays in the word, the comparison fails and
    the [assert] aborts, so the text [[true]] cannot be parsed. *)
Theorem literal_closer_not_given_back {P : Platform} :
  (exists st, read_true (istream_of (chars "true, ")) = Ret tt st
              /\ rest st = chars ", ") /\
  read_true (istream_of (chars "true]")) = Abort /\
  parse (json "[true]") = Abort /\
  parse (json "{'a': null}") = Abort.
Proof.
  split; [eexists; vm_compute; split; reflexivity|].
  split; [vm_compute; reflexivity|].
  split; run_parse; reflexivity.
Qed.


(** C9: The layout of collections.  Written at a depth that is not negative
    and leaves room for its nesting, every value comes out as [layout] says:
    for an object or an array the opening bracket, a new line, every child on
    a line of its own behind two more spaces than the collection has, a comma
    and a new line between children, a new line, and the closing bracket
    behind the spaces of the collection; an empty object or array is the
    opening bracket, two new lines, the spaces and the closing bracket; and
    the depth is afterwards what it was before. *)
Theorem collections_are_laid_out {P : Platform} (v : value) (os : ostream) :
  (0 <= iword os)%Z ->
  (iword os + 2 * Z.of_nat (depth v) <= LONG_MAX)%Z ->
  (exists os',
      write_value v os = Ret tt os' /\
      out os' = out os ++ layout (iword os) v /\
      iword os' = iword os) /\
  layout (iword os) (Object [])
  = ["{"; nl; nl] ++ spaces (iword os) ++ ["}"] /\
  layout (iword os) (Array [])
  = ["["; nl; nl] ++ spaces (iword os) ++ ["]"].
Proof.
  intros Hd Hfit. split; [|split; reflexivity].
  exists (put (layout (iword os) v) os).
  split; [now apply write_value_written | split; reflexivity].
Qed.

(** C10: Keys are written as strings.  The operator that writes a string
    wraps it in double quotes and writes each of the eight escapable
    characters as a backslash and its letter; a string value is written by
    that operator, and so is the key of every member of an object, behind
    the indent and before the colon and the space. *)
Theorem keys_are_written_as_strings {P : Platform} (key : text) (val : value)
    (obj : object) (first : bool) (os : ostream) :
  (0 <= iword os)%Z ->
  write_string key os
  = put ([dq] ++ flat_map two_character_escape key ++ [dq]) os /\
  write_value (String key) os = Ret tt (write_string key os) /\
  object_members write_value first ((key, val) :: obj) os
  = do (_, os') <-
      write_value val
        (put [":"; " "]
           (write_string key
              (put (spaces (iword os))
                 (if first then os else put [","; nl] os))));
    object_members write_value false obj os'.
Proof.
  intros Hd. split; [apply write_string_quoted | split; [reflexivity|]].
  cbn [object_members]. rewrite write_indent_ok; [|destruct first; exact Hd].
  cbn [bind]. destruct first; reflexivity.
Qed.

(* ================================================================== *)
(** * More of the program *)

(** ** The parser only moves the get position *)

Lemma skip_space_spec g r :
  exists ws,
    forallb isspace ws = true /\
    skip_space g r = (rev ws ++ g, skipn (length ws) r) /\
    r = ws ++ skipn (length ws) r.
Proof.
  revert g. induction r as [|c r IH]; intros g.
  - exists []. repeat split.
  - cbn [skip_space]. destruct (isspace c) eqn:E.
    + destruct (IH (c :: g)) as (ws & Hws & Hsk & Hr).
      exists (c :: ws). cbn [forallb length skipn rev app]. rewrite E, Hsk.
      rewrite <- app_assoc. repeat split; auto. cbn [app]. now rewrite <- Hr.
    + exists []. repeat split.
Qed.

(** A sentry that succeeds has skipped white space and nothing else, and
    leaves a good stream. *)
Lemma sentry_ok b st st1 :
  sentry b st = (true, st1) ->
  exists ws,
    forallb isspace ws = true /\
    rest st = ws ++ rest st1 /\ got st1 = rev ws ++ got st /\
    eofbit st1 = false /\ failbit st1 = false /\ badbit st1 = false /\
    skipws st1 = skipws st /\ good st = true /\
    (skipws st = true -> b = false ->
     match rest st1 with [] => False | c :: _ => isspace c = false end).
Proof.
  unfold sentry, good. destruct st as [g r e f bd sk]. cbn.
  destruct e, f, bd; cbn; try discriminate.
  destruct (negb b && sk) eqn:Eb; cbn.
  - destruct (skip_space_spec g r) as (ws & Hws & Hsk & Hr).
    pose proof (skip_space_head g r) as Hh.
    rewrite Hsk in *. cbn [snd] in Hh.
    destruct (skipn (length ws) r) as [|c r'] eqn:Er; cbn; [discriminate|].
    intros H. inversion H; subst st1. cbn. exists ws. repeat split; auto.
  - intros H. inversion H; subst st1. cbn. exists []. repeat split; auto.
    intros -> ->. discriminate Eb.
Qed.

Lemma sentry_content b st : content (snd (sentry b st)) = content st.
Proof.
  unfold sentry, content, good. destruct st as [g r e f bd sk]. cbn.
  destruct e, f, bd; cbn; try reflexivity.
  destruct (negb b && sk); cbn; [|reflexivity].
  destruct (skip_space_spec g r) as (ws & Hws & Hsk & Hr).
  rewrite Hsk.
  assert (H : rev (rev ws ++ g) ++ skipn (length ws) r = rev g ++ r).
  { rewrite rev_app_distr, rev_involutive, <- app_assoc. now rewrite <- Hr. }
  destruct (skipn (length ws) r); cbn in *; exact H.
Qed.

Lemma get_char_content st : content (snd (get_char st)) = content st.
Proof.
  unfold get_char. pose proof (sentry_content false st) as H.
  destruct (sentry false st) as [[|] st1]; cbn [snd] in *; [|exact H].
  rewrite <- H. unfold content. destruct st1 as [g r e f bd sk]. cbn.
  destruct r as [|c r]; cbn; [reflexivity|].
  now rewrite <- app_assoc.
Qed.

Lemma unget_content st : content (unget st) = content st.
Proof.
  unfold unget, content. destruct st as [g r e f bd sk]. cbn.
  destruct (good _); [|reflexivity].
  destruct g as [|c g]; cbn; [reflexivity|]. now rewrite <- app_assoc.
Qed.

Lemma get_word_content s0 st : content (snd (get_word s0 st)) = content st.
Proof.
  unfold get_word. pose proof (sentry_content false st) as H.
  destruct (sentry false st) as [[|] st1]; cbn [snd] in *; [|exact H].
  rewrite <- H. unfold content.
  pose proof (take_word_spec (got st1) (rest st1)) as Hw.
  destruct (take_word (got st1) (rest st1)) as [w [g r]].
  destruct Hw as (_ & Hg & Hr). rewrite Hr. subst g.
  assert (E : rev (rev w ++ got st1) ++ r = rev (got st1) ++ w ++ r).
  { now rewrite rev_app_distr, rev_involutive, <- app_assoc. }
  destruct r, w; cbn in *; exact E.
Qed.

Lemma get_number_content {P : Platform} x0 st :
  content (snd (get_number x0 st)) = content st.
Proof.
  unfold get_number. pose proof (sentry_content false st) as H.
  destruct (sentry false st) as [[|] st1]; cbn [snd] in *; [|exact H].
  rewrite <- H. unfold content.
  destruct (num_get (rest st1)) as [[x bad] n].
  assert (E : rev (rev (firstn n (rest st1)) ++ got st1) ++ skipn n (rest st1)
              = rev (got st1) ++ rest st1).
  { rewrite rev_app_distr, rev_involutive, <- app_assoc.
    now rewrite firstn_skipn. }
  destruct (length (rest st1) <=? n)%nat, bad; cbn; exact E.
Qed.

Lemma keeps_bind {A B : Type} st (m : outcome istream A)
    (k : A -> istream -> outcome istream B) :
  keeps st m ->
  (forall a st1, m = Ret a st1 -> keeps st1 (k a st1)) ->
  keeps st (bind m k).
Proof.
  intros Hm Hk b st' H. apply bind_ret in H. destruct H as (a & st1 & H1 & H2).
  rewrite (Hk a st1 H1 b st' H2). now apply (Hm a st1).
Qed.

Lemma keeps_ret {A : Type} st (a : A) st' :
  content st' = content st -> keeps st (Ret a st').
Proof. intros H ? ? E. inversion E; subst. exact H. Qed.

Lemma keeps_from {A : Type} st0 st (r : outcome istream A) :
  content st = content st0 -> keeps st r -> keeps st0 r.
Proof. intros H Hk a st' E. rewrite <- H. now apply (Hk a st'). Qed.

Ltac keeps_stop := intros ? ? X; discriminate X.

Section Content.

Context {P : Platform}.

Lemma read_one_character_keeps ch st : keeps st (read_one_character ch st).
Proof.
  unfold read_one_character. pose proof (get_char_content st) as H.
  destruct (get_char st) as [[c|] st1]; [|keeps_stop].
  destruct (c =? ch); [|keeps_stop]. now apply keeps_ret.
Qed.

Lemma escaped_character_keeps st : keeps st (escaped_character st).
Proof.
  unfold escaped_character. pose proof (get_char_content st) as H.
  destruct (get_char st) as [[c|] st1]; [|keeps_stop]. now apply keeps_ret.
Qed.

Lemma string_loop_keeps n str st : keeps st (string_loop n str st).
Proof.
  revert str st. induction n as [|n IH]; intros str st; [keeps_stop|].
  cbn [string_loop]. pose proof (get_char_content st) as H.
  destruct (get_char st) as [[c|] st1]; cbn [snd] in H;
    [|now apply keeps_ret].
  apply keeps_from with (st := st1); [exact H|].
  destruct (c =? bsl).
  - apply keeps_bind; [apply escaped_character_keeps|]. intros; apply IH.
  - destruct (c =? dq); [now apply keeps_ret | apply IH].
Qed.

Lemma read_string_keeps n str st : keeps st (read_string n str st).
Proof.
  unfold read_string. apply keeps_bind; [apply read_one_character_keeps|].
  intros [] st1 _.
  apply keeps_from with (st := set_skipws false st1); [reflexivity|].
  apply keeps_bind; [apply string_loop_keeps|].
  intros str' st2 _. now apply keeps_ret.
Qed.

Lemma read_literal_keeps spelling st : keeps st (read_literal spelling st).
Proof.
  unfold read_literal. pose proof (get_word_content [] st) as H.
  destruct (get_word [] st) as [w st1]. cbn [snd] in H.
  destruct (last (map Some w) None) as [back|]; [|keeps_stop].
  destruct (back =? ",").
  - destruct (list_eq_dec ascii_dec (removelast w) spelling); [|keeps_stop].
    apply keeps_ret. now rewrite unget_content.
  - destruct (list_eq_dec ascii_dec w spelling); [|keeps_stop].
    now apply keeps_ret.
Qed.

Section Loops.

Variable rv : value -> istream -> outcome istream value.
Hypothesis rv_keeps : forall val st, keeps st (rv val st).

Lemma read_member_keeps n mem st : keeps st (read_member rv n mem st).
Proof.
  unfold read_member. pose proof (get_char_content st) as H.
  destruct (get_char st) as [[c|] st1]; cbn [snd] in H; [|keeps_stop].
  apply keeps_from with (st := unget st1);
    [now rewrite unget_content|].
  destruct (c =? dq); [|now apply keeps_ret].
  apply keeps_bind; [apply read_string_keeps|]. intros k st3 _.
  apply keeps_bind; [apply read_one_character_keeps|]. intros [] st4 _.
  apply keeps_bind; [apply rv_keeps|]. intros v st5 _. now apply keeps_ret.
Qed.

Lemma object_loop_keeps_content n m obj st :
  keeps st (object_loop rv n m obj st).
Proof.
  revert m obj st. induction n as [|n IH]; intros m obj st; [keeps_stop|].
  cbn [object_loop]. apply keeps_bind; [apply read_member_keeps|].
  intros m1 st1 _. destruct (fail st1); [now apply keeps_ret|].
  destruct (map_insert (fst m1) (snd m1) obj) as [obj1 inserted].
  pose proof (get_char_content st1) as H.
  destruct (get_char st1) as [[c|] st2]; cbn [snd] in H; [|keeps_stop].
  destruct (c =? ",").
  - apply keeps_from with (st := st2); [exact H | apply IH].
  - apply keeps_ret. now rewrite unget_content.
Qed.

Lemma read_object_keeps n obj st : keeps st (read_object rv n obj st).
Proof.
  unfold read_object. apply keeps_bind; [apply read_one_character_keeps|].
  intros [] st1 _. apply keeps_bind; [apply object_loop_keeps_content|].
  intros obj' st2 _.
  apply keeps_from with (st := clear st2); [reflexivity|].
  apply keeps_bind; [apply read_one_character_keeps|].
  intros [] st3 _. now apply keeps_ret.
Qed.

Lemma array_loop_keeps n val ar st : keeps st (array_loop rv n val ar st).
Proof.
  revert val ar st. induction n as [|n IH]; intros val ar st; [keeps_stop|].
  cbn [array_loop]. apply keeps_bind; [apply rv_keeps|].
  intros val1 st1 _. destruct (fail st1); [now apply keeps_ret|].
  pose proof (get_char_content st1) as H.
  destruct (get_char st1) as [[c|] st2]; cbn [snd] in H; [|keeps_stop].
  destruct (c =? ",").
  - apply keeps_from with (st := st2); [exact H | apply IH].
  - apply keeps_ret. now rewrite unget_content.
Qed.

Lemma read_array_keeps n ar st : keeps st (read_array rv n ar st).
Proof.
  unfold read_array. apply keeps_bind; [apply read_one_character_keeps|].
  intros [] st1 _. apply keeps_bind; [apply array_loop_keeps|].
  intros ar' st2 _.
  apply keeps_from with (st := clear st2); [reflexivity|].
  apply keeps_bind; [apply read_one_character_keeps|].
  intros [] st3 _. now apply keeps_ret.
Qed.

End Loops.

Lemma read_value_keeps fuel : forall val st, keeps st (read_value fuel val st).
Proof.
  induction fuel as [|f IH]; intros val st; [keeps_stop|].
  cbn [read_value]. pose proof (get_char_content st) as H.
  destruct (get_char st) as [[c|] st1]; cbn [snd] in H; [|keeps_stop].
  apply keeps_from with (st := unget st1); [now rewrite unget_content|].
  destruct (c =? "{").
  { apply keeps_bind; [now apply read_object_keeps|].
    intros; now apply keeps_ret. }
  destruct (c =? "[").
  { apply keeps_bind; [now apply read_array_keeps|].
    intros; now apply keeps_ret. }
  destruct (c =? dq).
  { apply keeps_bind; [apply read_string_keeps|].
    intros; now apply keeps_ret. }
  destruct (c =? "t").
  { apply keeps_bind; [apply read_literal_keeps|].
    intros; now apply keeps_ret. }
  destruct (c =? "f").
  { apply keeps_bind; [apply read_literal_keeps|].
    intros; now apply keeps_ret. }
  destruct (c =? "n").
  { apply keeps_bind; [apply read_literal_keeps|].
    intros; now apply keeps_ret. }
  destruct (isdigit c || (c =? "-")).
  - pose proof (get_number_content number_zero (unget st1)) as Hn.
    destruct (get_number number_zero (unget st1)) as [x st3].
    now apply keeps_ret.
  - now apply keeps_ret.
Qed.

End Content.

(** X1: The parser only moves the get position.  Whenever the parser of a
    value or the parser of an object returns, failed or not, the stream is
    on the text it was on: the characters before the get position followed
    by the characters from it on are still the input. *)
Theorem parser_keeps_the_text {P : Platform} (s : text) :
  (forall v st, parse s = Ret v st -> rev (got st) ++ rest st = s) /\
  (forall obj st, parse_object s = Ret obj st -> rev (got st) ++ rest st = s).
Proof.
  split.
  - intros v st H. apply (read_value_keeps _ _ _ _ _ H).
  - intros obj st H.
    apply (read_object_keeps (read_value (S (length s)))
             (read_value_keeps _) _ _ _ _ _ H).
Qed.

(** X2: The parser never steps back.  With a counter above what is left to
    read, a parser of a value that returns leaves at most as much to read as
    there was: [unget] gives back one character that was read, never more. *)
Theorem parser_never_steps_back {P : Platform} (fuel : nat) (val : value)
    (st : istream) (v : value) (st' : istream) :
  length (rest st) < fuel ->
  read_value fuel val st = Ret v st' ->
  length (rest st') <= length (rest st).
Proof.
  intros Hf H. exact (proj2 (read_value_steady fuel val st Hf) v st' H).
Qed.

(** ** The literals *)

Lemma take_word_shape g r :
  let '(w, (g', r')) := take_word g r in
  forallb (fun c => negb (isspace c)) w = true /\
  match r' with [] => True | c :: _ => isspace c = true end.
Proof.
  revert g. induction r as [|c r IH]; intros g; cbn [take_word]; [auto|].
  destruct (isspace c) eqn:E; [cbn; auto|].
  specialize (IH (c :: g)).
  destruct (take_word (c :: g) r) as [w [g' r']].
  destruct IH as [Hw Hr]. cbn. rewrite E. auto.
Qed.

(** A word is read whole when the end, or white space, comes after it. *)
Lemma take_word_app w g r :
  forallb (fun c => negb (isspace c)) w = true ->
  match r with [] => True | c :: _ => isspace c = true end ->
  take_word g (w ++ r) = (w, (rev w ++ g, r)).
Proof.
  revert g. induction w as [|c w IH]; intros g Hw Hr.
  - destruct r as [|c r]; cbn in *; [reflexivity | now rewrite Hr].
  - cbn in Hw. apply andb_prop in Hw. destruct Hw as [Hc Hw].
    apply negb_true_iff in Hc. cbn [app take_word]. rewrite Hc.
    rewrite IH by assumption. cbn [rev]. now rewrite <- app_assoc.
Qed.

Lemma last_some (w : text) (c : ascii) :
  last (map Some (w ++ [c])) None = Some c.
Proof.
  induction w as [|x w IH]; [reflexivity|].
  cbn [app map]. cbn [last]. rewrite IH.
  destruct (map Some (w ++ [c])) eqn:E; [|reflexivity].
  destruct w; discriminate E.
Qed.

Lemma last_some_inv (w : text) (c : ascii) :
  last (map Some w) None = Some c -> w = removelast w ++ [c].
Proof.
  induction w as [|x w IH]; [discriminate|].
  destruct w as [|y w].
  - cbn. intros H. inversion H. reflexivity.
  - intros H. change (last (map Some (y :: w)) None = Some c) in H.
    apply IH in H. change (removelast (x :: y :: w))
      with (x :: removelast (y :: w)).
    cbn [app]. now rewrite <- H.
Qed.

(** X3: What a literal parser accepts.  A parser of [true], [false] or
    [null] that returns was given a good stream and has taken white space
    (none when [skipws] is off) and exactly the spelling of the literal: the
    stream is left right behind the spelling, not failed. *)
Theorem literal_parser_takes_its_spelling (spelling : text)
    (st st' : istream) :
  read_literal spelling st = Ret tt st' ->
  good st = true /\ fail st' = false /\
  exists ws,
    forallb isspace ws = true /\ rest st = ws ++ spelling ++ rest st'.
Proof.
  unfold read_literal, get_word.
  destruct (sentry false st) as [[|] st1] eqn:Es; cbn;
    [|intros H; discriminate H].
  apply sentry_ok in Es.
  destruct Es as (ws & Hws & Hr & Hg & He & Hf & Hb & Hsk & Hgood & _).
  pose proof (take_word_spec (got st1) (rest st1)) as Hw.
  destruct (take_word (got st1) (rest st1)) as [w [g r]].
  destruct Hw as (_ & Hg1 & Hr1).
  destruct (last (map Some w) None) as [back|] eqn:Eb;
    [|intros H; discriminate H].
  apply last_some_inv in Eb.
  assert (Hne : w <> []) by (intros ->; destruct (removelast []); discriminate).
  destruct w as [|w0 w]; [contradiction|].
  destruct (back =? ",") eqn:Ec.
  - apply Ascii.eqb_eq in Ec. subst back.
    destruct (list_eq_dec ascii_dec (removelast (w0 :: w)) spelling) as [E|];
      [|intros H; discriminate H].
    intros H. inversion H; subst st'. clear H.
    rewrite E in Eb. split; [exact Hgood|].
    assert (Hgot : g = "," :: rev spelling ++ got st1).
    { rewrite Hg1, Eb, rev_app_distr. reflexivity. }
    clear Hg1.
    destruct st1 as [g1 r1 e1 f1 b1 sk1].
    cbn [got rest eofbit failbit badbit skipws] in *. subst e1 f1 b1 g.
    unfold unget, good, fail. destruct r; cbn.
    + split; [reflexivity|]. exists ws. split; [exact Hws|].
      rewrite Hr, Hr1, Eb, <- app_assoc. reflexivity.
    + split; [reflexivity|]. exists ws. split; [exact Hws|].
      rewrite Hr, Hr1, Eb, <- app_assoc. reflexivity.
  - destruct (list_eq_dec ascii_dec (w0 :: w) spelling) as [E|];
      [|intros H; discriminate H].
    intros H. inversion H; subst st'. clear H.
    split; [exact Hgood|].
    destruct st1 as [g1 r1 e1 f1 b1 sk1].
    cbn [got rest eofbit failbit badbit skipws] in *. subst e1 f1 b1.
    unfold fail. destruct r; cbn.
    + split; [reflexivity|]. exists ws. split; [exact Hws|].
      now rewrite Hr, Hr1, E.
    + split; [reflexivity|]. exists ws. split; [exact Hws|].
      now rewrite Hr, Hr1, E.
Qed.

Lemma sentry_reading ws g c r :
  forallb isspace ws = true -> isspace c = false ->
  sentry false (reading g (ws ++ c :: r))
  = (true, reading (rev ws ++ g) (c :: r)).
Proof.
  intros Hws Hc. unfold sentry, reading. cbn.
  now rewrite (skip_space_app ws g c r Hws Hc).
Qed.

Lemma read_literal_complete (c0 : ascii) (sp : text) (b : ascii) ws g tail :
  forallb (fun c => negb (isspace c)) (c0 :: sp) = true ->
  last (map Some (c0 :: sp)) None = Some b -> (b =? ",") = false ->
  forallb isspace ws = true -> ends_word tail ->
  exists st',
    read_literal (c0 :: sp) (reading g (ws ++ (c0 :: sp) ++ tail)) = Ret tt st'
    /\ rest st' = tail /\ fail st' = false.
Proof.
  intros Hsp Hlast Hb Hws Htail.
  assert (Hc0 : isspace c0 = false).
  { cbn in Hsp. apply andb_prop in Hsp. now apply negb_true_iff, Hsp. }
  unfold read_literal, get_word. cbn [app].
  rewrite sentry_reading by assumption. cbn [reading got rest].
  change (c0 :: sp ++ tail) with ((c0 :: sp) ++ tail).
  destruct tail as [|c t].
  - rewrite take_word_app by (assumption || exact I).
    rewrite Hlast, Hb.
    destruct (list_eq_dec ascii_dec (c0 :: sp) (c0 :: sp)); [|contradiction].
    eexists. split; [reflexivity|]. split; reflexivity.
  - destruct Htail as [Hc | [-> Ht]].
    + rewrite take_word_app by assumption.
      rewrite Hlast, Hb.
      destruct (list_eq_dec ascii_dec (c0 :: sp) (c0 :: sp)); [|contradiction].
      eexists. split; [reflexivity|]. split; reflexivity.
    + change ((c0 :: sp) ++ "," :: t) with ((c0 :: sp) ++ [","] ++ t).
      rewrite app_assoc.
      rewrite take_word_app.
      2:{ rewrite forallb_app, Hsp. reflexivity. }
      2:{ exact Ht. }
      rewrite last_some, Ascii.eqb_refl, removelast_last.
      destruct (list_eq_dec ascii_dec (c0 :: sp) (c0 :: sp)); [|contradiction].
      rewrite rev_app_distr. cbn [rev app].
      destruct t; eexists; (split; [reflexivity|]); split; reflexivity.
Qed.

(** X4: What the literal parsers do accept.  On a good stream that skips
    white space, [true], [false] and [null] are read when the end of the
    text, white space, or a comma with the end or white space after it comes
    next; the stream is left at what comes next (the comma is given back)
    and is not failed. *)
Theorem literals_are_read (ws g tail : text) :
  forallb isspace ws = true -> ends_word tail ->
  (exists st', read_true (reading g (ws ++ chars "true" ++ tail)) = Ret tt st'
               /\ rest st' = tail /\ fail st' = false) /\
  (exists st', read_false (reading g (ws ++ chars "false" ++ tail)) = Ret tt st'
               /\ rest st' = tail /\ fail st' = false) /\
  (exists st', read_null (reading g (ws ++ chars "null" ++ tail)) = Ret tt st'
               /\ rest st' = tail /\ fail st' = false).
Proof.
  intros Hws Htail. repeat split.
  - apply (read_literal_complete "t" (chars "rue") "e"); auto.
  - apply (read_literal_complete "f" (chars "alse") "e"); auto.
  - apply (read_literal_complete "n" (chars "ull") "l"); auto.
Qed.

(** ** Strings that do not end, blank input, and a character that starts no
    value *)

Lemma string_loop_to_the_end body n s0 g :
  forallb plain body = true -> length body < n ->
  string_loop n s0 (mk_istream g body false false false false)
  = Ret (s0 ++ body) (mk_istream (rev body ++ g) [] true true false false).
Proof.
  revert n s0 g. induction body as [|c body IH]; intros n s0 g Hp Hn.
  - destruct n as [|n]; [inversion Hn|]. rewrite app_nil_r. reflexivity.
  - destruct n as [|n]; [inversion Hn|].
    cbn in Hp. apply andb_prop in Hp. destruct Hp as [Hc Hp].
    unfold plain in Hc. apply andb_prop in Hc. destruct Hc as [Hq Hb].
    apply negb_true_iff in Hq, Hb.
    cbn [string_loop]. unfold get_char, sentry. cbn. rewrite Hb, Hq.
    change (seek (c :: g) body (mk_istream g (c :: body) false false false false))
      with (mk_istream (c :: g) body false false false false).
    rewrite IH by (assumption || (cbn in Hn; lia)).
    cbn [rev]. now rewrite <- !app_assoc.
Qed.

(** X5: A string that does not end.  When the text ends before the closing
    quote (the body holding neither quote nor backslash), the string parser
    does not abort: it returns what the string held followed by the whole
    body, with [failbit] and [eofbit] set and [skipws] switched on again. *)
Theorem unterminated_string_fails (body s0 ws g : text) (n : nat) :
  forallb plain body = true -> forallb isspace ws = true ->
  length body < n ->
  read_string n s0 (reading g (ws ++ dq :: body))
  = Ret (s0 ++ body)
      (mk_istream (rev body ++ dq :: rev ws ++ g) [] true true false true).
Proof.
  intros Hp Hws Hn. unfold read_string.
  rewrite read_one_character_skip by (assumption || reflexivity).
  cbn [bind]. unfold reading, set_skipws. cbn [got rest eofbit failbit badbit].
  rewrite string_loop_to_the_end by assumption. reflexivity.
Qed.

Lemma skip_space_all ws g :
  forallb isspace ws = true -> skip_space g ws = (rev ws ++ g, []).
Proof.
  revert g. induction ws as [|c ws IH]; intros g H; [reflexivity|].
  cbn in H. apply andb_prop in H. destruct H as [Hc H].
  cbn [skip_space]. rewrite Hc, IH by assumption.
  cbn [rev]. now rewrite <- app_assoc.
Qed.

Lemma get_char_blank ws :
  forallb isspace ws = true -> fst (get_char (istream_of ws)) = None.
Proof.
  intros H. unfold get_char, sentry, istream_of. cbn.
  now rewrite skip_space_all.
Qed.

(** X6: Blank input.  On a text that is empty or all white space, and on a
    file that cannot be opened, nothing is extracted into the [char] that
    the parser then compares: the parser of a value, the parser of an object
    and [main] end in undefined behaviour, not in a failed stream. *)
Theorem blank_input_is_undefined {P : Platform} (ws : text) :
  forallb isspace ws = true ->
  parse ws = Undefined /\ parse_object ws = Undefined /\
  main (Some ws) = Undefined /\ main None = Undefined.
Proof.
  intros H. pose proof (get_char_blank ws H) as Hg.
  assert (Hobj : forall rv n,
             read_object rv n [] (istream_of ws) = Undefined).
  { intros rv n. unfold read_object, read_one_character.
    destruct (get_char (istream_of ws)) as [[c|] st1];
      [discriminate Hg | reflexivity]. }
  split; [|split; [|split]].
  - unfold parse. cbn [read_value].
    destruct (get_char (istream_of ws)) as [[c|] st1];
      [discriminate Hg | reflexivity].
  - apply Hobj.
  - unfold main, ifstream. cbv zeta. now rewrite Hobj.
  - reflexivity.
Qed.

(** X7: A character that starts no value, and one that starts no member.
    Behind any white space, a character that is none of the brace, the
    bracket, the quote, t, f, n, a digit or the minus sign makes the parser
    of a value set [failbit], leave the value it was given as it is, and
    leave the character unread; a character that is not the quote does the
    same to the parser of a member. *)
Theorem unexpected_character_is_left {P : Platform} (f n : nat) (val : value)
    (mem : member) (rv : value -> istream -> outcome istream value)
    (ws g : text) (c : ascii) (r : text) :
  forallb isspace ws = true -> isspace c = false ->
  ((c =? dq) = false ->
   read_member rv n mem (reading g (ws ++ c :: r))
   = Ret mem (set_failbit (reading (rev ws ++ g) (c :: r)))) /\
  ((c =? "{") = false -> (c =? "[") = false -> (c =? dq) = false ->
   (c =? "t") = false -> (c =? "f") = false -> (c =? "n") = false ->
   (isdigit c || (c =? "-")) = false ->
   read_value (S f) val (reading g (ws ++ c :: r))
   = Ret val (set_failbit (reading (rev ws ++ g) (c :: r)))).
Proof.
  intros Hws Hc. split.
  - intros Hq. unfold read_member.
    rewrite get_char_reading by assumption. now rewrite Hq.
  - intros H1 H2 H3 H4 H5 H6 H7.
    rewrite read_value_peek by assumption. cbv zeta.
    now rewrite H1, H2, H3, H4, H5, H6, H7.
Qed.

(** ** The serializer, whenever it returns *)

Lemma write_indent_ret os u os' :
  write_indent os = Ret u os' ->
  (0 <= iword os)%Z /\ os' = put (spaces (iword os)) os.
Proof.
  unfold write_indent. destruct (iword os <? 0)%Z eqn:E; [discriminate|].
  intros H. inversion H. apply Z.ltb_ge in E. auto.
Qed.

Lemma increase_indent_ret os u os' :
  increase_indent os = Ret u os' -> os' = mk_ostream (out os) (iword os + 2).
Proof.
  unfold increase_indent. destruct (LONG_MAX <? iword os + 2)%Z;
    [discriminate|]. intros H. now inversion H.
Qed.

Lemma decrease_indent_ret os u os' :
  decrease_indent os = Ret u os' -> os' = mk_ostream (out os) (iword os - 2).
Proof.
  unfold decrease_indent. destruct (iword os - 2 <? LONG_MIN)%Z;
    [discriminate|]. intros H. now inversion H.
Qed.

Section WriterReturns.

Context {P : Platform}.

Lemma object_members_ret obj :
  Forall (fun kv => comes_out (snd kv)) obj ->
  forall first os os',
    object_members write_value first obj os = Ret tt os' ->
    os' = put (lines first [","; nl]
                 (map (fun child => spaces (iword os) ++ child)
                    (map (fun kv => quoted (fst kv) ++ [":"; " "]
                                    ++ layout (iword os) (snd kv)) obj)))
            os.
Proof.
  induction 1 as [|[key val] obj Hval _ IH]; intros first os os' H.
  - cbn in H. inversion H. destruct first; cbn; now rewrite put_nil.
  - cbn [object_members] in H.
    apply bind_ret in H. destruct H as ([] & os2 & Hind & H).
    apply write_indent_ret in Hind. destruct Hind as [_ ->].
    apply bind_ret in H. destruct H as ([] & os3 & Hv & H).
    apply Hval in Hv. cbn [snd] in Hv. subst os3.
    apply IH in H. subst os'.
    assert (Hd1 : iword (if first then os else put [","; nl] os) = iword os)
      by (destruct first; reflexivity).
    rewrite write_string_quoted, !put_put. cbn [iword put]. rewrite !Hd1.
    destruct first; unfold put; cbn; f_equal;
      rewrite <- ?app_assoc; cbn; rewrite <- ?app_assoc; reflexivity.
Qed.

Lemma array_elements_ret ar :
  Forall comes_out ar ->
  forall first os os',
    array_elements write_value first ar os = Ret tt os' ->
    os' = put (lines first [","; nl]
                 (map (fun child => spaces (iword os) ++ child)
                    (map (layout (iword os)) ar)))
            os.
Proof.
  induction 1 as [|el ar Hel _ IH]; intros first os os' H.
  - cbn in H. inversion H. destruct first; cbn; now rewrite put_nil.
  - cbn [array_elements] in H.
    apply bind_ret in H. destruct H as ([] & os2 & Hind & H).
    apply write_indent_ret in Hind. destruct Hind as [_ ->].
    apply bind_ret in H. destruct H as ([] & os3 & Hv & H).
    apply Hel in Hv. subst os3.
    apply IH in H. subst os'.
    assert (Hd1 : iword (if first then os else put [","; nl] os) = iword os)
      by (destruct first; reflexivity).
    rewrite !put_put. cbn [iword put]. rewrite !Hd1.
    destruct first; unfold put; cbn; f_equal;
      rewrite <- ?app_assoc; cbn; rewrite <- ?app_assoc; reflexivity.
Qed.

Lemma write_value_comes_out v : comes_out v.
Proof.
  induction v as [obj IH|ar IH|str|x| | |] using value_ind;
    intros os os' H; try (cbn in H; inversion H; reflexivity).
  - cbn [write_value] in H. unfold write_object in H.
    apply bind_ret in H. destruct H as ([] & os1 & H1 & H).
    apply increase_indent_ret in H1. subst os1.
    apply bind_ret in H. destruct H as ([] & os2 & H2 & H).
    apply (object_members_ret obj IH) in H2. subst os2.
    apply bind_ret in H. destruct H as ([] & os3 & H3 & H).
    apply decrease_indent_ret in H3. subst os3.
    apply bind_ret in H. destruct H as ([] & os4 & H4 & H).
    apply write_indent_ret in H4. destruct H4 as [_ ->].
    inversion H. cbn [layout]. unfold put, collection. cbn [out iword].
    replace (iword os + 2 - 2)%Z with (iword os) by lia.
    f_equal. rewrite <- !app_assoc. reflexivity.
  - cbn [write_value] in H. unfold write_array in H.
    apply bind_ret in H. destruct H as ([] & os1 & H1 & H).
    apply increase_indent_ret in H1. subst os1.
    apply bind_ret in H. destruct H as ([] & os2 & H2 & H).
    apply (array_elements_ret ar IH) in H2. subst os2.
    apply bind_ret in H. destruct H as ([] & os3 & H3 & H).
    apply decrease_indent_ret in H3. subst os3.
    apply bind_ret in H. destruct H as ([] & os4 & H4 & H).
    apply write_indent_ret in H4. destruct H4 as [_ ->].
    inversion H. cbn [layout]. unfold put, collection. cbn [out iword].
    replace (iword os + 2 - 2)%Z with (iword os) by lia.
    f_equal. rewrite <- !app_assoc. reflexivity.
  - cbn in H. inversion H. now rewrite write_string_quoted.
Qed.

End WriterReturns.

(** X8: The serializer only appends, and gives the depth back.  Whenever
    writing a value returns, at whatever depth it started, the stream holds
    what it held followed by the text of the value at that depth, and the
    depth is what it was: what was written before is never touched. *)
Theorem writer_only_appends {P : Platform} (v : value) (os os' : ostream) :
  write_value v os = Ret tt os' ->
  out os' = out os ++ layout (iword os) v /\ iword os' = iword os.
Proof.
  intros H. apply write_value_comes_out in H. subst os'. split; reflexivity.
Qed.

(** X9: A collection at a negative depth.  With the depth below zero (and
    within the range of a [long], with room for the nesting), writing an
    object or an array does not return: the string of spaces asked for has a
    negative length, and the write ends in the exception. *)
Theorem negative_depth_throws {P : Platform} (obj : object) (ar : array)
    (os : ostream) :
  (LONG_MIN <= iword os)%Z -> (iword os < 0)%Z ->
  (iword os + 2 * Z.of_nat (depth (Object obj)) <= LONG_MAX)%Z ->
  (iword os + 2 * Z.of_nat (depth (Array ar)) <= LONG_MAX)%Z ->
  write_value (Object obj) os = Throw /\ write_value (Array ar) os = Throw.
Proof.
  intros Hmin Hneg Hobj Har.
  assert (Hthrow : forall os0, (iword os0 < 0)%Z -> write_indent os0 = Throw).
  { intros os0 H. unfold write_indent.
    destruct (iword os0 <? 0)%Z eqn:E; [reflexivity|].
    apply Z.ltb_ge in E. lia. }
  split.
  - cbn [write_value]. unfold write_object.
    assert (Hdepth : 1 <= depth (Object obj)) by (cbn [depth]; lia).
    rewrite increase_indent_ok by (cbn [iword put out]; lia). cbn [bind].
    destruct (Z.ltb_spec (iword os + 2) 0) as [Hlow|Hhigh].
    + destruct obj as [|[key val] obj].
      * cbn [object_members bind].
        rewrite decrease_indent_ok by (cbn [iword put out]; lia). cbn [bind].
        rewrite Hthrow by (cbn [iword put out]; lia). reflexivity.
      * cbn [object_members]. rewrite Hthrow by (cbn [iword put out]; lia). reflexivity.
    + rewrite (object_members_written obj).
      * cbn [bind].
        rewrite decrease_indent_ok by (cbn [iword put out]; lia).
        cbn [bind].
        rewrite Hthrow by (cbn [iword put out]; lia). reflexivity.
      * apply Forall_forall. intros kv _. apply write_value_written.
      * cbn [iword put out]; lia.
      * cbn [iword put]. eapply Forall_impl; [|apply depth_object].
        cbv beta. intros kv Hkv. lia.
  - cbn [write_value]. unfold write_array.
    assert (Hdepth : 1 <= depth (Array ar)) by (cbn [depth]; lia).
    rewrite increase_indent_ok by (cbn [iword put out]; lia). cbn [bind].
    destruct (Z.ltb_spec (iword os + 2) 0) as [Hlow|Hhigh].
    + destruct ar as [|el ar].
      * cbn [array_elements bind].
        rewrite decrease_indent_ok by (cbn [iword put out]; lia). cbn [bind].
        rewrite Hthrow by (cbn [iword put out]; lia). reflexivity.
      * cbn [array_elements]. rewrite Hthrow by (cbn [iword put out]; lia). reflexivity.
    + rewrite (array_elements_written ar).
      * cbn [bind].
        rewrite decrease_indent_ok by (cbn [iword put out]; lia).
        cbn [bind].
        rewrite Hthrow by (cbn [iword put out]; lia). reflexivity.
      * apply Forall_forall. intros x _. apply write_value_written.
      * cbn [iword put out]; lia.
      * cbn [iword put]. eapply Forall_impl; [|apply depth_array].
        cbv beta. intros x Hx. lia.
Qed.

Lemma escape_no_control c :
  forallb (fun x => negb (control x)) (two_character_escape c) = true.
Proof. destruct c as [[] [] [] [] [] [] [] []]; reflexivity. Qed.

(** X10: A string is written on one line.  Whatever the string holds, the
    text written for it holds no backspace, form feed, new line, carriage
    return or tab: each of them is written as its two-character escape. *)
Theorem written_string_has_no_control (str : text) :
  forallb (fun x => negb (control x)) (out (write_string str ostream_new))
  = true.
Proof.
  assert (H : forallb (fun x => negb (control x))
                (flat_map two_character_escape str) = true).
  { induction str as [|c str IH]; [reflexivity|].
    cbn [flat_map]. rewrite forallb_app, escape_no_control. exact IH. }
  rewrite write_string_quoted. unfold quoted, put, ostream_new.
  cbn [out app forallb]. rewrite forallb_app, H. reflexivity.
Qed.

(** ** Different values, different texts *)

(** X11: Two strings are never written alike.  When the operator that
    writes a string writes the same characters for two strings, the two
    strings are the same: the parser reads either back from the text. *)
Theorem written_strings_differ (s1 s2 : text) (os : ostream) :
  write_string s1 os = write_string s2 os -> s1 = s2.
Proof.
  rewrite !write_string_quoted. unfold put. intros H.
  inversion H as [Hout]. apply app_inv_head in Hout.
  pose proof (read_string_quoted s1 (S (length s1 + length s2)) [] [] [] [])
    as H1.
  pose proof (read_string_quoted s2 (S (length s1 + length s2)) [] [] [] [])
    as H2.
  rewrite Hout in H1. rewrite H2 in H1 by (reflexivity || lia).
  specialize (H1 ltac:(lia) eq_refl). now inversion H1.
Qed.

(** X12: Two values are never serialized alike.  Two values that the output
    grammar expresses exactly and that are serialized to the same text are
    the same value. *)
Theorem serialized_values_differ {P : Platform} (v1 v2 : value)
    (os : ostream) :
  wf_value v1 -> Forall roundtrips (numbers v1) ->
  (2 * Z.of_nat (depth v1) <= LONG_MAX)%Z ->
  wf_value v2 -> Forall roundtrips (numbers v2) ->
  (2 * Z.of_nat (depth v2) <= LONG_MAX)%Z ->
  serialize v1 = Ret tt os -> serialize v2 = Ret tt os -> v1 = v2.
Proof.
  intros Hwf1 Hn1 Hd1 Hwf2 Hn2 Hd2 H1 H2.
  destruct (roundtrip_text v1 Hwf1 Hn1 Hd1) as (Hs1 & st1 & Hp1 & _).
  destruct (roundtrip_text v2 Hwf2 Hn2 Hd2) as (Hs2 & st2 & Hp2 & _).
  rewrite H1 in Hs1. rewrite H2 in Hs2. rewrite Hs1 in Hs2.
  inversion Hs2 as [Hl]. rewrite Hl in Hp1. rewrite Hp2 in Hp1.
  now inversion Hp1.
Qed.

(** ** A serialized value inside a longer text *)

(** X13: A serialized value is read back wherever it stands.  The text of a
    value that the output grammar expresses exactly, written at any depth,
    is read back behind any white space and before the end of the text, a
    new line, or a comma and a new line: the parser returns the value and
    leaves the stream, not failed, at what comes after it. *)
Theorem serialized_value_is_read_in_place {P : Platform} (v val : value)
    (d : Z) (ws g tail : text) :
  wf_value v -> Forall roundtrips (numbers v) ->
  forallb isspace ws = true -> follows tail ->
  exists st,
    read_value (S (length (ws ++ layout d v ++ tail))) val
      (reading g (ws ++ layout d v ++ tail))
    = Ret v st /\
    rest st = tail /\ fail st = false.
Proof.
  intros Hwf Hnum Hws Hfo.
  destruct (serialized_reads v Hwf Hnum d _ val g ws tail Hws Hfo
              (Nat.lt_succ_diag_r _)) as (st & Hrd & g' & e & -> & _).
  eexists. split; [exact Hrd|]. split; reflexivity.
Qed.

(** ** The program on its own output *)

Lemma read_object_serialized {P : Platform} (obj : object) (tail : text)
    (n : nat) :
  wf_value (Object obj) -> Forall roundtrips (numbers (Object obj)) ->
  follows tail ->
  length (layout 0 (Object obj) ++ tail) < n ->
  exists st,
    read_object (read_value n) n []
      (istream_of (layout 0 (Object obj) ++ tail))
    = Ret obj st.
Proof.
  intros Hwf Hnum Hfo Hn.
  destruct (serialized_reads (Object obj) Hwf Hnum 0%Z (S n) value_default
              [] [] tail eq_refl Hfo) as (st & Hrd & _).
  { cbn [app]. lia. }
  revert Hrd. cbn [layout]. unfold collection. cbn [app].
  change (reading [] ("{" :: ?r)) with (reading [] ([] ++ "{" :: r)).
  rewrite read_value_object by reflexivity. cbn [rev app].
  intros Hrd. apply bind_ret in Hrd. destruct Hrd as (obj' & st' & Hobj & Hret).
  inversion Hret; subst. exists st. exact Hobj.
Qed.

(** X14: The program reproduces its own output.  Given a file that holds
    the text of an object that the output grammar expresses exactly, with
    nothing, or a new line and anything, after it, [main] writes that text
    and a new line: run on what it has written, the program writes the same
    again. *)
Theorem main_reproduces_its_output {P : Platform} (obj : object)
    (tail : text) :
  wf_value (Object obj) -> Forall roundtrips (numbers (Object obj)) ->
  (2 * Z.of_nat (depth (Object obj)) <= LONG_MAX)%Z ->
  tail = [] \/ (exists t, tail = nl :: t) ->
  main (Some (layout 0 (Object obj) ++ tail))
  = Ret tt (mk_ostream (layout 0 (Object obj) ++ [nl]) 0).
Proof.
  intros Hwf Hnum Hdepth Htail.
  assert (Hfo : follows tail) by (destruct Htail; [left | right; left]; auto).
  unfold main, ifstream. cbv zeta.
  change (rest (istream_of ?s)) with s.
  destruct (read_object_serialized obj tail
              (S (length (layout 0 (Object obj) ++ tail))) Hwf Hnum Hfo
              (Nat.lt_succ_diag_r _)) as (st & Hrd).
  rewrite Hrd.
  change (write_object write_value obj ostream_new)
    with (write_value (Object obj) ostream_new).
  rewrite write_value_written by (unfold ostream_new; cbn [iword]; lia).
  reflexivity.
Qed.

(** X15: What the program prints.  Whatever the file holds, when [main]
    returns it has written the text, at depth 0, of an object whose keys
    increase strictly at every level, and a new line after it. *)
Theorem main_prints_a_sorted_object {P : Platform} (file : option text)
    (cout : ostream) :
  main file = Ret tt cout ->
  exists obj,
    wf_value (Object obj) /\
    cout = mk_ostream (layout 0 (Object obj) ++ [nl]) 0.
Proof.
  unfold main. cbv zeta.
  destruct (read_object _ _ _ _) as [obj st| | | |] eqn:Hrd;
    try discriminate.
  intros H. apply bind_ret in H. destruct H as ([] & os & Hw & H).
  inversion H; subst cout. clear H.
  exists obj. split.
  - apply wf_object.
    eapply (read_object_wf (read_value _) (read_value_wf _)); [exact Hrd|].
    split; [exact I | constructor].
  - change (write_object write_value obj ostream_new)
      with (write_value (Object obj) ostream_new) in Hw.
    apply write_value_comes_out in Hw. subst os. reflexivity.
Qed.

(** ** Looking a member up *)

Lemma increasing_find {V : Type} (m : list (text * V)) k v :
  increasing (keys m) -> In (k, v) m -> map_find k m = Some v.
Proof.
  induction m as [|[k' v'] m IH]; intros Hinc Hin; [contradiction|].
  change (keys ((k', v') :: m)) with (k' :: keys m) in Hinc.
  pose proof (increasing_lt_all _ _ Hinc) as Hall.
  apply increasing_cons in Hinc. destruct Hinc as [_ Hinc].
  destruct Hin as [E|Hin].
  - inversion E; subst. cbn. now rewrite compare_refl.
  - cbn. rewrite Forall_forall in Hall.
    assert (Hk : lt k' k).
    { apply Hall. unfold keys. apply in_map_iff. exists (k, v). auto. }
    rewrite (lt_gt _ _ Hk). now apply IH.
Qed.

Lemma increasing_nodup (ks : list text) : increasing ks -> NoDup ks.
Proof.
  induction ks as [|k ks IH]; intros H; constructor.
  - intros Hin. pose proof (increasing_lt_all _ _ H) as Hall.
    rewrite Forall_forall in Hall. specialize (Hall k Hin).
    unfold lt in Hall. rewrite compare_refl in Hall. discriminate.
  - apply IH. apply increasing_cons in H. apply H.
Qed.

(** X16: The members of a parsed object.  In the object that the parser of
    an object returns, no key occurs twice, and every member that a
    range-for visits is the one [find] returns for its key. *)
Theorem parsed_members_are_found {P : Platform} (s : text) (obj : object)
    (st : istream) :
  parse_object s = Ret obj st ->
  NoDup (keys obj) /\
  forall k v, In (k, v) obj -> map_find k obj = Some v.
Proof.
  intros H.
  assert (Hwf : wf_object_map obj).
  { eapply (read_object_wf (read_value _) (read_value_wf _)); [exact H|].
    split; [exact I | constructor]. }
  destruct Hwf as [Hinc _]. split.
  - now apply increasing_nodup.
  - intros k v. now apply increasing_find.
Qed.

(** ** Parsing into a container that holds something *)

(** The loop of the string parser never looks at the string it appends to:
    started on [a ++ b], it does what it does started on [b], with [a] in
    front of the result. *)
Lemma string_loop_behind n : forall a b st,
  string_loop n (a ++ b) st
  = do (more, st') <- string_loop n b st; Ret (a ++ more) st'.
Proof.
  induction n as [|n IH]; intros a b st; [reflexivity|].
  cbn [string_loop]. destruct (get_char st) as [[c|] st1]; [|reflexivity].
  destruct (c =? bsl).
  - destruct (escaped_character st1) as [c' st2| | | |]; try reflexivity.
    cbn [bind]. rewrite <- app_assoc. apply IH.
  - destruct (c =? dq); [reflexivity|].
    rewrite <- app_assoc. apply IH.
Qed.

Lemma read_string_behind n str st :
  read_string n str st
  = do (more, st') <- read_string n [] st; Ret (str ++ more) st'.
Proof.
  unfold read_string.
  destruct (read_one_character dq st) as [[] st1| | | |]; try reflexivity.
  cbn [bind]. rewrite <- (app_nil_r str) at 1. rewrite string_loop_behind.
  destruct (string_loop n [] (set_skipws false st1)) as [more st2| | | |];
    reflexivity.
Qed.

(** The loop of the string parser on a body and its closing quote. *)
Lemma string_loop_closed n : forall body s0 g tail,
  closed body = true -> length body < n ->
  string_loop n s0
    (mk_istream g (body ++ dq :: tail) false false false false)
  = Ret (s0 ++ unescaped body)
      (mk_istream (dq :: rev body ++ g) tail false false false false).
Proof.
  induction n as [|n IH]; intros body s0 g tail Hc Hn; [inversion Hn|].
  destruct body as [|c body].
  - cbn [app unescaped rev]. rewrite app_nil_r. reflexivity.
  - cbn [closed] in Hc. cbn [unescaped]. cbn [string_loop].
    change (get_char
              (mk_istream g ((c :: body) ++ dq :: tail)
                 false false false false))
      with (Some c,
            mk_istream (c :: g) (body ++ dq :: tail) false false false false).
    cbv beta iota.
    destruct (c =? bsl) eqn:Hb.
    + destruct body as [|e body]; [discriminate|].
      change (escaped_character
                (mk_istream (c :: g) ((e :: body) ++ dq :: tail)
                   false false false false))
        with (Ret (escaped e)
                (mk_istream (e :: c :: g) (body ++ dq :: tail)
                   false false false false)).
      cbn [bind]. rewrite IH by (assumption || (cbn [length] in Hn; lia)).
      cbn [rev]. rewrite <- !app_assoc. reflexivity.
    + apply andb_prop in Hc. destruct Hc as [Hq Hc].
      apply negb_true_iff in Hq. rewrite Hq.
      rewrite IH by (assumption || (cbn [length] in Hn; lia)).
      cbn [rev]. rewrite <- !app_assoc. reflexivity.
Qed.

(** X17: The string parser appends.  The operator that reads a string does
    not empty the string it is given.  Behind any white space, on a quote, a
    body that the closing quote can follow, and that quote, it returns what
    the string held followed by the body with every escape replaced by the
    character it stands for, and leaves the stream behind the closing quote.
    On every stream, reading into a string that holds [str] does what reading
    into an empty string does, with [str] in front of the characters
    read. *)
Theorem string_parser_appends (str body ws g tail : text) (n : nat) :
  closed body = true -> forallb isspace ws = true -> length body < n ->
  read_string n str (reading g (ws ++ dq :: body ++ dq :: tail))
  = Ret (str ++ unescaped body)
      (reading (dq :: rev body ++ dq :: rev ws ++ g) tail) /\
  forall m st,
    read_string m str st
    = do (more, st') <- read_string m [] st; Ret (str ++ more) st'.
Proof.
  intros Hc Hws Hn. split; [|intros m st; apply read_string_behind].
  unfold read_string.
  rewrite read_one_character_skip by (assumption || reflexivity).
  cbn [bind]. unfold reading, set_skipws. cbn [got rest eofbit failbit badbit].
  rewrite string_loop_closed by assumption. reflexivity.
Qed.

(** The loop of the array parser never looks at the array it appends to. *)
Lemma array_loop_behind {P : Platform}
    (rv : value -> istream -> outcome istream value) n :
  forall val a b st,
    array_loop rv n val (a ++ b) st
    = do (more, st') <- array_loop rv n val b st; Ret (a ++ more) st'.
Proof.
  induction n as [|n IH]; intros val a b st; [reflexivity|].
  cbn [array_loop].
  destruct (rv val st) as [val1 st1| | | |]; try reflexivity.
  cbn [bind]. destruct (fail st1); [reflexivity|].
  destruct (get_char st1) as [[c|] st2]; [|reflexivity].
  destruct (c =? ",").
  - rewrite <- app_assoc. apply IH.
  - rewrite <- app_assoc. reflexivity.
Qed.

Lemma read_array_behind {P : Platform}
    (rv : value -> istream -> outcome istream value) n ar st :
  read_array rv n ar st
  = do (more, st') <- read_array rv n [] st; Ret (ar ++ more) st'.
Proof.
  unfold read_array.
  destruct (read_one_character "[" st) as [[] st1| | | |]; try reflexivity.
  cbn [bind]. rewrite <- (app_nil_r ar) at 1. rewrite array_loop_behind.
  destruct (array_loop rv n value_default [] st1) as [more st2| | | |];
    try reflexivity.
  cbn [bind].
  destruct (read_one_character "]" (clear st2)) as [[] st3| | | |];
    reflexivity.
Qed.

(** The array parser on the text of an array, reading into an array that
    holds [ar]. *)
Lemma read_array_serialized {P : Platform} (ar xs : array) (d : Z) (f : nat)
    (g ws tail : text) :
  Forall reads xs -> forallb isspace ws = true ->
  length (ws ++ layout d (Array xs) ++ tail) < f ->
  exists g',
    read_array (read_value f) f ar
      (reading g (ws ++ layout d (Array xs) ++ tail))
    = Ret (ar ++ xs) (reading g' tail).
Proof.
  intros Hreads Hws Hlen. destruct xs as [|x xs].
  - rewrite layout_array_nil in *. cbn [app] in *.
    unfold read_array.
    rewrite read_one_character_skip by (assumption || reflexivity).
    cbn [bind].
    destruct f as [|f]; [inversion Hlen|].
    cbn [array_loop].
    rewrite <- app_assoc. cbn [app].
    change (nl :: nl :: spaces d ++ "]" :: tail)
      with ((nl :: nl :: spaces d) ++ "]" :: tail).
    destruct f as [|f]; [revert Hlen; count_lengths; lia|].
    rewrite read_value_peek
      by (reflexivity || (cbn [forallb]; now rewrite spaces_isspace)).
    rewrite app_nil_r. eexists. reflexivity.
  - rewrite layout_array_cons in *. flatten_text. flatten_text_in Hlen.
    unfold read_array.
    rewrite read_one_character_skip by (assumption || reflexivity).
    cbn [bind].
    inversion Hreads as [|? ? Hx Har]; subst.
    change (nl :: spaces (d + 2) ++ ?r) with ((nl :: spaces (d + 2)) ++ r).
    destruct (array_loop_back f (d + 2) xs Har x Hx f
                value_default ar ("[" :: rev ws ++ g)
                (nl :: spaces (d + 2)) (spaces d) tail)
      as (g' & Hloop).
    + cbn [forallb]. now rewrite spaces_isspace.
    + apply spaces_isspace.
    + exact (le_n _).
    + revert Hlen. count_lengths. lia.
    + rewrite Hloop. cbn [bind app].
      change (clear (reading g' ("]" :: tail)))
        with (reading g' ([] ++ "]" :: tail)).
      rewrite read_one_character_skip by reflexivity. cbn [bind].
      eexists. reflexivity.
Qed.

(** X18: The array parser appends.  The operator that reads an array keeps
    the elements the array holds, in their order, and puts the elements it
    reads behind them.  On the text the serializer writes for the elements
    [xs] (well-formed, their numbers expressed exactly), at any depth and
    behind any white space, it returns the old elements followed by [xs],
    not failed and with the stream behind the closing bracket.  On every
    stream, and whatever the parser of the elements is, reading into an
    array that holds [ar] does what reading into an empty array does, with
    [ar] in front of the elements read. *)
Theorem array_parser_appends {P : Platform} (ar xs : array) (d : Z) (f : nat)
    (g ws tail : text) :
  wf_value (Array xs) -> Forall roundtrips (numbers (Array xs)) ->
  forallb isspace ws = true ->
  length (ws ++ layout d (Array xs) ++ tail) < f ->
  (exists st,
      read_array (read_value f) f ar
        (reading g (ws ++ layout d (Array xs) ++ tail))
      = Ret (ar ++ xs) st /\
      rest st = tail /\ fail st = false) /\
  forall rv n st,
    read_array rv n ar st
    = do (more, st') <- read_array rv n [] st; Ret (ar ++ more) st'.
Proof.
  intros Hwf Hnum Hws Hlen.
  split; [|intros rv n st; apply read_array_behind].
  apply wf_array in Hwf. rewrite numbers_array in Hnum.
  assert (Hreads : Forall reads xs).
  { clear Hlen. induction xs as [|y xs IH]; constructor.
    - inversion Hwf; subst. cbn [flat_map] in Hnum.
      apply Forall_app in Hnum. apply serialized_reads; tauto.
    - inversion Hwf; subst. cbn [flat_map] in Hnum.
      apply Forall_app in Hnum. apply IH; tauto. }
  destruct (read_array_serialized ar xs d f g ws tail Hreads Hws Hlen)
    as (g' & Hrd).
  exists (reading g' tail). rewrite Hrd. repeat split.
Qed.


(* ================================================================== *)
(** * The claims at concrete inputs *)

#[local] Existing Instance Decimal.platform.

Lemma decimal_one_roundtrips : @roundtrips Decimal.platform 1%N.
Proof.
  split.
  - exists "1", []. split; reflexivity.
  - intros tail [->|[[t ->]|[t ->]]]; reflexivity.
Qed.

Lemma sample_fits :
  wf_value Decimal.sample /\
  Forall roundtrips (numbers Decimal.sample) /\
  (2 * Z.of_nat (depth Decimal.sample) <= LONG_MAX)%Z.
Proof.
  split; [|split].
  - vm_compute. tauto.
  - repeat constructor; apply decimal_one_roundtrips.
  - vm_compute. discriminate.
Qed.

(** The sample tree is read back from its text. *)
Lemma parse_serialize_roundtrip_witness :
  (wf_value Decimal.sample /\
   Forall roundtrips (numbers Decimal.sample) /\
   (2 * Z.of_nat (depth Decimal.sample) <= LONG_MAX)%Z) /\
  exists os st,
    serialize Decimal.sample = Ret tt os /\
    parse (out os) = Ret Decimal.sample st /\ fail st = false.
Proof.
  split; [exact sample_fits|].
  apply (parse_serialize_roundtrip Decimal.sample);
    [exact (proj1 sample_fits) | exact (proj1 (proj2 sample_fits))
     | exact (proj2 (proj2 sample_fits))].
Defined.

(** The text of the sample tree is written again from what was parsed. *)
Lemma reserialize_same_bytes_witness :
  (wf_value Decimal.sample /\
   Forall roundtrips (numbers Decimal.sample) /\
   (2 * Z.of_nat (depth Decimal.sample) <= LONG_MAX)%Z) /\
  exists os st v',
    serialize Decimal.sample = Ret tt os /\
    parse (out os) = Ret v' st /\ fail st = false /\
    serialize v' = Ret tt os.
Proof.
  split; [exact sample_fits|].
  apply (reserialize_same_bytes Decimal.sample);
    [exact (proj1 sample_fits) | exact (proj1 (proj2 sample_fits))
     | exact (proj2 (proj2 sample_fits))].
Defined.

(** The decimal scanner reads a digit before a comma or a closing brace. *)
Lemma decimal_scans :
  @scans Decimal.platform "1" 1%N /\
  @scans Decimal.platform "2" 2%N /\
  @scans Decimal.platform "3" 3%N.
Proof. split; [|split]; intros tail; split; reflexivity. Qed.

(** With the decimal scanner and an [insert] that does not move from what it
    refuses: [{"x":1,"x":2}] is the object where x is 1, and in
    [{"x":1,"x":2,"x":3}] the value of the third x is under the key xx. *)
Lemma later_duplicate_is_not_dropped_witness :
  (@scans Decimal.platform "1" 1%N /\
   @scans Decimal.platform "2" 2%N /\
   @scans Decimal.platform "3" 3%N) /\
  (exists st,
      @parse Decimal.platform (json "{'x':1,'x':2}")
      = Ret (Object [(chars "x", Number 1%N)]) st
      /\ fail st = false) /\
  (exists st,
      @parse Decimal.platform (json "{'x':1,'x':2,'x':3}")
      = Ret (Object [(chars "x", Number 1%N); (chars "xx", Number 3%N)]) st
      /\ fail st = false).
Proof.
  split; [exact decimal_scans|].
  exact (proj2 (proj2 (@later_duplicate_is_not_dropped Decimal.platform
                         1%N 2%N 3%N
                         (proj1 decimal_scans)
                         (proj1 (proj2 decimal_scans))
                         (proj2 (proj2 decimal_scans))))).
Defined.

(** The members b, a of the text are the members a, b of the object. *)
Lemma parsed_keys_increase_witness :
  exists st,
    @parse Decimal.platform (json "{'b': true , 'a': null }")
    = Ret (Object [(chars "a", Null); (chars "b", True_)]) st /\
    wf_value (@Object Decimal.platform [(chars "a", Null); (chars "b", True_)]).
Proof.
  eexists. split; [vm_compute; reflexivity|].
  refine (proj1 (@parsed_keys_increase Decimal.platform
                   (json "{'b': true , 'a': null }") _ _ _)).
  vm_compute. reflexivity.
Defined.

(** An object with an empty array in it, written at depth 0. *)
Lemma collections_are_laid_out_witness :
  ((0 <= iword ostream_new)%Z /\
   (iword ostream_new
    + 2 * Z.of_nat (depth (@Object Decimal.platform [(chars "a", Array [])]))
    <= LONG_MAX)%Z) /\
  exists os',
    write_value (@Object Decimal.platform [(chars "a", Array [])]) ostream_new
    = Ret tt os' /\
    out os'
    = ["{"; nl; " "; " "; dq; "a"; dq; ":"; " "; "["; nl; nl; " "; " "; "]";
       nl; "}"] /\
    iword os' = 0%Z.
Proof.
  assert (H0 : (0 <= iword ostream_new)%Z) by (vm_compute; discriminate).
  assert (H1 : (iword ostream_new
                + 2 * Z.of_nat
                        (depth (@Object Decimal.platform
                                  [(chars "a", Array [])]))
                <= LONG_MAX)%Z) by (vm_compute; discriminate).
  split; [split; assumption|].
  exact (proj1 (@collections_are_laid_out Decimal.platform
                  (Object [(chars "a", Array [])]) ostream_new H0 H1)).
Defined.

(** A key with a quote and a backslash in it. *)
Lemma keys_are_written_as_strings_witness :
  (0 <= iword ostream_new)%Z /\
  write_string (json "k'\") ostream_new
  = put [dq; "k"; bsl; dq; bsl; bsl; dq] ostream_new.
Proof.
  assert (H0 : (0 <= iword ostream_new)%Z) by (vm_compute; discriminate).
  split; [assumption|].
  exact (proj1 (@keys_are_written_as_strings Decimal.platform
                  (json "k'\") Null [] true ostream_new H0)).
Defined.


(** What the refused insert leaves behind, where it does not move from its
    argument: the key of the duplicate stays in the loop's [member], and the
    next key is appended to it. *)
Lemma key_after_a_duplicate :
  exists st,
    @parse Decimal.platform (json "{'x':1,'x':2,'y':3}")
    = Ret (Object [(chars "x", Number 1%N); (chars "xy", Number 3%N)]) st /\
    fail st = false.
Proof.
  eexists. split; vm_compute; reflexivity.
Qed.

(** Against C2 as stated: a parse that aborts, and [{"a": }] accepted as the
    empty object. *)
Lemma parse_aborts_and_accepts :
  @parse Decimal.platform (chars "tru") = Abort /\
  @parse_object Decimal.platform (chars "x") = Abort /\
  exists st,
    @parse Decimal.platform (json "{'a': }") = Ret (Object []) st /\
    fail st = false.
Proof.
  split; [reflexivity|]. split; [reflexivity|].
  eexists. split; vm_compute; reflexivity.
Qed.


(** ** More of the program at concrete inputs *)

(** The text [[1, ]] is still the text of the stream after the parse, and
    the get position is not before where it was. *)
Lemma parser_never_steps_back_witness :
  exists st',
    (length (rest (istream_of (chars "  [1, ] x"))) < 10 /\
     @read_value Decimal.platform 10 value_default
       (istream_of (chars "  [1, ] x"))
     = Ret (Array [Number 1%N]) st') /\
    length (rest st') <= length (rest (istream_of (chars "  [1, ] x"))).
Proof.
  eexists.
  assert (H1 : length (rest (istream_of (chars "  [1, ] x"))) < 10)
    by (vm_compute; repeat constructor).
  assert (H2 : @read_value Decimal.platform 10 value_default
                 (istream_of (chars "  [1, ] x"))
               = Ret (Array [@Number Decimal.platform 1%N])
                   (mk_istream (rev (chars "  [1, ]")) (chars " x")
                      false false false true))
    by (vm_compute; reflexivity).
  split; [split; [exact H1 | exact H2]|].
  exact (@parser_never_steps_back Decimal.platform 10 value_default
           (istream_of (chars "  [1, ] x")) _ _ H1 H2).
Defined.

(** The word [null,] behind a blank: the comma is given back. *)
Lemma literal_parser_takes_its_spelling_witness :
  exists st',
    read_literal (chars "null") (istream_of (chars " null, 1")) = Ret tt st' /\
    good (istream_of (chars " null, 1")) = true /\ fail st' = false /\
    exists ws,
      forallb isspace ws = true /\
      rest (istream_of (chars " null, 1")) = ws ++ chars "null" ++ rest st'.
Proof.
  eexists. split; [vm_compute; reflexivity|].
  apply (literal_parser_takes_its_spelling (chars "null")
           (istream_of (chars " null, 1"))
           (mk_istream (rev (chars " null")) (chars ", 1")
              false false false true)).
  vm_compute. reflexivity.
Defined.

(** The three literals before a comma and a new line. *)
Lemma literals_are_read_witness :
  (forallb isspace [" "; nl] = true /\ ends_word [","; nl; "x"]) /\
  exists st',
    read_true (reading [] ([" "; nl] ++ chars "true" ++ [","; nl; "x"]))
    = Ret tt st' /\
    rest st' = [","; nl; "x"] /\ fail st' = false.
Proof.
  assert (H1 : forallb isspace [" "; nl] = true) by reflexivity.
  assert (H2 : ends_word [","; nl; "x"])
    by (right; split; reflexivity).
  split; [split; assumption|].
  exact (proj1 (literals_are_read [" "; nl] [] [","; nl; "x"] H1 H2)).
Defined.

(** A quote and the body abc, with no closing quote. *)
Lemma unterminated_string_fails_witness :
  (forallb plain (chars "abc") = true /\ forallb isspace [" "] = true /\
   length (chars "abc") < 4) /\
  read_string 4 [] (reading [] ([" "] ++ dq :: chars "abc"))
  = Ret ([] ++ chars "abc")
      (mk_istream (rev (chars "abc") ++ dq :: rev [" "] ++ []) []
         true true false true).
Proof.
  assert (H1 : forallb plain (chars "abc") = true) by reflexivity.
  assert (H2 : forallb isspace [" "] = true) by reflexivity.
  assert (H3 : length (chars "abc") < 4) by (vm_compute; repeat constructor).
  split; [repeat split; assumption|].
  exact (unterminated_string_fails (chars "abc") [] [" "] [] 4 H1 H2 H3).
Defined.

(** A file of two blanks and a new line. *)
Lemma blank_input_is_undefined_witness :
  forallb isspace [" "; " "; nl] = true /\
  @parse Decimal.platform [" "; " "; nl] = Undefined /\
  @parse_object Decimal.platform [" "; " "; nl] = Undefined /\
  @main Decimal.platform (Some [" "; " "; nl]) = Undefined /\
  @main Decimal.platform None = Undefined.
Proof.
  assert (H : forallb isspace [" "; " "; nl] = true) by reflexivity.
  split; [exact H|].
  exact (@blank_input_is_undefined Decimal.platform [" "; " "; nl] H).
Defined.

(** The closing brace where a member or a value is looked for. *)
Lemma unexpected_character_is_left_witness :
  (forallb isspace [nl] = true /\ isspace "}" = false) /\
  @read_value Decimal.platform 1 Null (reading [] ([nl] ++ "}" :: []))
  = Ret Null (set_failbit (reading (rev [nl] ++ []) ("}" :: []))).
Proof.
  assert (H1 : forallb isspace [nl] = true) by reflexivity.
  assert (H2 : isspace "}" = false) by reflexivity.
  split; [split; assumption|].
  exact (proj2 (@unexpected_character_is_left Decimal.platform 0 0 Null
                  ([], Null) (read_value 0) [nl] [] "}" [] H1 H2)
           eq_refl eq_refl eq_refl eq_refl eq_refl eq_refl eq_refl).
Defined.

(** An array written behind text that is already there, at depth 2. *)
Lemma writer_only_appends_witness :
  @write_value Decimal.platform (Array [True_]) (mk_ostream (chars "x: ") 2)
  = Ret tt (mk_ostream (chars "x: " ++ ["["; nl] ++ chars "    true"
                          ++ [nl] ++ chars "  ]") 2) /\
  out (mk_ostream (chars "x: " ++ ["["; nl] ++ chars "    true"
                     ++ [nl] ++ chars "  ]") 2)
  = out (mk_ostream (chars "x: ") 2)
    ++ @layout Decimal.platform (iword (mk_ostream (chars "x: ") 2))
         (Array [True_]) /\
  iword (mk_ostream (chars "x: " ++ ["["; nl] ++ chars "    true"
                       ++ [nl] ++ chars "  ]") 2)
  = iword (mk_ostream (chars "x: ") 2).
Proof.
  assert (H : @write_value Decimal.platform (Array [True_])
                (mk_ostream (chars "x: ") 2)
              = Ret tt (mk_ostream (chars "x: " ++ ["["; nl]
                                      ++ chars "    true"
                                      ++ [nl] ++ chars "  ]") 2))
    by (vm_compute; reflexivity).
  split; [exact H|].
  exact (@writer_only_appends Decimal.platform (Array [True_])
           (mk_ostream (chars "x: ") 2) _ H).
Defined.

(** The empty object and the empty array at depth -2. *)
Lemma negative_depth_throws_witness :
  ((LONG_MIN <= iword (mk_ostream [] (-2)))%Z /\
   (iword (mk_ostream [] (-2)) < 0)%Z) /\
  @write_value Decimal.platform (Object []) (mk_ostream [] (-2)) = Throw /\
  @write_value Decimal.platform (Array []) (mk_ostream [] (-2)) = Throw.
Proof.
  assert (H1 : (LONG_MIN <= iword (mk_ostream [] (-2)))%Z)
    by (vm_compute; discriminate).
  assert (H2 : (iword (mk_ostream [] (-2)) < 0)%Z) by reflexivity.
  assert (H3 : (iword (mk_ostream [] (-2))
                + 2 * Z.of_nat (depth (@Object Decimal.platform []))
                <= LONG_MAX)%Z) by (vm_compute; discriminate).
  assert (H4 : (iword (mk_ostream [] (-2))
                + 2 * Z.of_nat (depth (@Array Decimal.platform []))
                <= LONG_MAX)%Z) by (vm_compute; discriminate).
  split; [split; assumption|].
  exact (@negative_depth_throws Decimal.platform [] [] (mk_ostream [] (-2))
           H1 H2 H3 H4).
Defined.

(** One string against itself. *)
Lemma written_strings_differ_witness :
  write_string (chars "a/b") ostream_new = write_string (chars "a/b") ostream_new
  /\ chars "a/b" = chars "a/b".
Proof.
  split; [reflexivity|].
  exact (written_strings_differ (chars "a/b") (chars "a/b") ostream_new
           eq_refl).
Defined.

Lemma sample_serialized :
  serialize Decimal.sample
  = Ret tt (mk_ostream (layout 0 Decimal.sample) 0).
Proof. exact (proj1 (roundtrip_text Decimal.sample
                       (proj1 sample_fits) (proj1 (proj2 sample_fits))
                       (proj2 (proj2 sample_fits)))). Qed.

(** The sample tree against itself. *)
Lemma serialized_values_differ_witness :
  (wf_value Decimal.sample /\
   Forall roundtrips (numbers Decimal.sample) /\
   (2 * Z.of_nat (depth Decimal.sample) <= LONG_MAX)%Z) /\
  serialize Decimal.sample
  = Ret tt (mk_ostream (layout 0 Decimal.sample) 0) /\
  Decimal.sample = Decimal.sample.
Proof.
  split; [exact sample_fits|]. split; [exact sample_serialized|].
  exact (serialized_values_differ Decimal.sample Decimal.sample _
           (proj1 sample_fits) (proj1 (proj2 sample_fits))
           (proj2 (proj2 sample_fits))
           (proj1 sample_fits) (proj1 (proj2 sample_fits))
           (proj2 (proj2 sample_fits))
           sample_serialized sample_serialized).
Defined.

(** The sample tree written at depth 4, behind a tab, before a comma. *)
Lemma serialized_value_is_read_in_place_witness :
  (wf_value Decimal.sample /\
   Forall roundtrips (numbers Decimal.sample) /\
   forallb isspace [tab] = true /\ follows [","; nl; "x"]) /\
  exists st,
    read_value
      (S (length ([tab] ++ layout 4 Decimal.sample ++ [","; nl; "x"])))
      Null (reading [] ([tab] ++ layout 4 Decimal.sample ++ [","; nl; "x"]))
    = Ret Decimal.sample st /\
    rest st = [","; nl; "x"] /\ fail st = false.
Proof.
  assert (H1 : forallb isspace [tab] = true) by reflexivity.
  assert (H2 : follows [","; nl; "x"])
    by (right; right; exists ["x"]; reflexivity).
  split; [repeat split; try assumption; apply sample_fits|].
  exact (serialized_value_is_read_in_place Decimal.sample Null 4 [tab] []
           [","; nl; "x"] (proj1 sample_fits) (proj1 (proj2 sample_fits))
           H1 H2).
Defined.

Lemma small_fits :
  wf_value (Object Decimal.small) /\
  Forall roundtrips (numbers (Object Decimal.small)) /\
  (2 * Z.of_nat (depth (Object Decimal.small)) <= LONG_MAX)%Z.
Proof.
  split; [|split].
  - vm_compute. tauto.
  - repeat constructor; apply decimal_one_roundtrips.
  - vm_compute. discriminate.
Qed.

(** The program on the text it wrote for the small object, the new line
    included. *)
Lemma main_reproduces_its_output_witness :
  (wf_value (Object Decimal.small) /\
   Forall roundtrips (numbers (Object Decimal.small)) /\
   (2 * Z.of_nat (depth (Object Decimal.small)) <= LONG_MAX)%Z) /\
  main (Some (layout 0 (Object Decimal.small) ++ [nl]))
  = Ret tt (mk_ostream (layout 0 (Object Decimal.small) ++ [nl]) 0).
Proof.
  split; [exact small_fits|].
  exact (main_reproduces_its_output Decimal.small [nl]
           (proj1 small_fits) (proj1 (proj2 small_fits))
           (proj2 (proj2 small_fits))
           (or_intror (ex_intro _ [] eq_refl))).
Defined.

(** The program on members out of order, one of them without a value. *)
Lemma main_prints_a_sorted_object_witness :
  exists obj,
    @main Decimal.platform (Some (json "{'b': 2 , 'a': [] , 'c': }"))
    = Ret tt (mk_ostream (layout 0 (Object obj) ++ [nl]) 0) /\
    wf_value (Object obj).
Proof.
  assert (H : @main Decimal.platform
                (Some (json "{'b': 2 , 'a': [] , 'c': }"))
              = Ret tt
                  (mk_ostream
                     (layout 0
                        (@Object Decimal.platform
                           [(chars "a", Array []); (chars "b", Number 2%N)])
                      ++ [nl]) 0))
    by (vm_compute; reflexivity).
  destruct (@main_prints_a_sorted_object Decimal.platform _ _ H)
    as (obj & Hwf & Hout).
  exists obj. split; [|exact Hwf].
  rewrite H. now rewrite Hout.
Defined.

(** The members of the object read from members out of order. *)
Lemma parsed_members_are_found_witness :
  exists st,
    @parse_object Decimal.platform (json "{'b': 2 , 'a': [] }")
    = Ret [(chars "a", Array []); (chars "b", Number 2%N)] st /\
    NoDup (keys (V := @value Decimal.platform)
             [(chars "a", Array []); (chars "b", Number 2%N)]).
Proof.
  eexists. split; [vm_compute; reflexivity|].
  refine (proj1 (@parsed_members_are_found Decimal.platform
                   (json "{'b': 2 , 'a': [] }") _ _ _)).
  vm_compute. reflexivity.
Defined.

(** A key with two escapes in it, read into a string that holds x. *)
Lemma string_parser_appends_witness :
  (closed (json "y\n\'z") = true /\
   forallb isspace (chars " ") = true /\
   length (json "y\n\'z") < 7) /\
  read_string 7 (chars "x") (reading [] (json " 'y\n\'z': 1"))
  = Ret ["x"; "y"; nl; dq; "z"]
      (reading (rev (json " 'y\n\'z'")) (chars ": 1")) /\
  forall m st,
    read_string m (chars "x") st
    = do (more, st') <- read_string m [] st; Ret (chars "x" ++ more) st'.
Proof.
  split; [split; [|split]; vm_compute; reflexivity|].
  exact (string_parser_appends (chars "x") (json "y\n\'z") (chars " ") []
           (chars ": 1") 7 eq_refl eq_refl (le_n 7)).
Defined.

(** A number and an empty array, read into an array that holds null. *)
Lemma elements_fit :
  wf_value (@Array Decimal.platform [Number 1%N; Array []]) /\
  Forall roundtrips (numbers (@Array Decimal.platform [Number 1%N; Array []]))
  /\ forallb isspace (chars " ") = true /\
  length (chars " "
          ++ layout 2 (@Array Decimal.platform [Number 1%N; Array []])
          ++ chars ", x") < 40.
Proof.
  split; [|split; [|split]].
  - vm_compute. tauto.
  - repeat constructor; apply decimal_one_roundtrips.
  - reflexivity.
  - vm_compute. lia.
Qed.

Lemma array_parser_appends_witness :
  (wf_value (@Array Decimal.platform [Number 1%N; Array []]) /\
   Forall roundtrips
     (numbers (@Array Decimal.platform [Number 1%N; Array []])) /\
   forallb isspace (chars " ") = true /\
   length (chars " "
           ++ layout 2 (@Array Decimal.platform [Number 1%N; Array []])
           ++ chars ", x") < 40) /\
  exists st,
    read_array (@read_value Decimal.platform 40) 40 [Null]
      (reading []
         (chars " "
          ++ layout 2 (@Array Decimal.platform [Number 1%N; Array []])
          ++ chars ", x"))
    = Ret [Null; Number 1%N; Array []] st /\
    rest st = chars ", x" /\ fail st = false.
Proof.
  split; [exact elements_fit|].
  exact (proj1 (@array_parser_appends Decimal.platform [Null]
                  [Number 1%N; Array []] 2 40 [] (chars " ") (chars ", x")
                  (proj1 elements_fit)
                  (proj1 (proj2 elements_fit))
                  (proj1 (proj2 (proj2 elements_fit)))
                  (proj2 (proj2 (proj2 elements_fit))))).
Defined.
